(** * fabric-network: the Gateway (lib/gateway.js)

    A shallow embedding of the [Gateway] class of fabric-network and the
    properties of its option merging, connection, identity, TLS, query
    handler and network cache logic.

    Conventions of the embedding.
    - JavaScript values are the type [value]: the primitives, and objects
      that carry their address (what [===] compares) and their own
      enumerable properties in enumeration order (what [for ... in] visits).
      Functions, classes and class instances are objects too.
    - A number is an integer [Z]; the code only tests numbers for truthiness
      and identity.
    - Everything the Gateway calls outside lib/gateway.js (fabric-client's
      Client, the wallet, [require], lib/network.js, the query handler class)
      is an external [call], answered by an oracle over an abstract world
      and recorded in a trace.
    - An [async] method is run to completion: its caller awaits the result
      before it issues the next call.
    - Option objects are embedded by value: the objects a caller passes
      to [connect] share no object with the options the Gateway holds.
    - Logging is left out. *)

From Stdlib Require Import String Ascii List ZArith Bool Arith Lia DecimalString.
From Stdlib Require Import RelationClasses.
Import ListNotations.
Open Scope string_scope.
Open Scope list_scope.

(** ** JavaScript values *)

Definition addr := nat.

#[local] Set Warnings "-register-all".

Inductive value : Type :=
| VUndef
| VNull
| VBool (b : bool)
| VNum (n : Z)
| VStr (s : string)
| VObj (a : addr) (fields : list (string * value)).

(** What a [throw] carries: an Error object, by name and message. *)
Record exn : Type := mkExn { exn_name : string; exn_message : string }.

Definition TypeError (msg : string) : exn := mkExn "TypeError" msg.
Definition Error (msg : string) : exn := mkExn "Error" msg.

(** [Error.prototype.toString], as a template literal renders an error. *)
Definition exn_toString (e : exn) : string :=
  if (exn_name e =? "")%string then exn_message e
  else if (exn_message e =? "")%string then exn_name e
  else exn_name e ++ ": " ++ exn_message e.

(** The result of an expression or a call: a value or a thrown error. *)
Definition result (A : Type) : Type := (A + exn)%type.

Definition truthy (v : value) : bool :=
  match v with
  | VUndef | VNull => false
  | VBool b => b
  | VNum n => negb (n =? 0)%Z
  | VStr s => negb (s =? "")%string
  | VObj _ _ => true
  end.

(** [v instanceof Object] *)
Definition instanceofObject (v : value) : bool :=
  match v with
  | VObj _ _ => true
  | _ => false
  end.

(** [v === undefined] *)
Definition is_undefined (v : value) : bool :=
  match v with
  | VUndef => true
  | _ => false
  end.

(** [v === w]: primitives by value, objects by address. *)
Definition strict_eq (v w : value) : bool :=
  match v, w with
  | VUndef, VUndef => true
  | VNull, VNull => true
  | VBool a, VBool b => Bool.eqb a b
  | VNum a, VNum b => (a =? b)%Z
  | VStr a, VStr b => (a =? b)%string
  | VObj a _, VObj b _ => Nat.eqb a b
  | _, _ => false
  end.

(** [s.endsWith(suffix)] *)
Definition endsWith (s suffix : string) : bool :=
  let n := String.length s in
  let m := String.length suffix in
  (m <=? n)%nat && (substring (n - m) m s =? suffix)%string.

(** ** Own properties of an object, in enumeration order *)

Fixpoint lookup (k : string) (fs : list (string * value)) : option value :=
  match fs with
  | [] => None
  | (k', v) :: rest => if (k' =? k)%string then Some v else lookup k rest
  end.

(** Assignment [o[k] = v]: an existing property keeps its place, a new one
    goes last. *)
Fixpoint assign (k : string) (v : value) (fs : list (string * value))
  : list (string * value) :=
  match fs with
  | [] => [(k, v)]
  | (k', v') :: rest =>
      if (k' =? k)%string then (k, v) :: rest else (k', v') :: assign k v rest
  end.

(** [delete o[k]] *)
Fixpoint remove (k : string) (fs : list (string * value))
  : list (string * value) :=
  match fs with
  | [] => []
  | (k', v') :: rest =>
      if (k' =? k)%string then remove k rest else (k', v') :: remove k rest
  end.

Definition keys (fs : list (string * value)) : list string := map fst fs.

(** Reading [v[k]] (or [v.k]).  On [null] and [undefined] it throws; on the
    other primitives it finds nothing, since none of the names this file
    reads is a property of a boolean, number or string. *)
Definition getProp (v : value) (k : string) : result value :=
  match v with
  | VObj _ fs =>
      match lookup k fs with
      | Some x => inl x
      | None => inl VUndef
      end
  | VUndef => inr (TypeError "Cannot read property of undefined")
  | VNull => inr (TypeError "Cannot read property of null")
  | _ => inl VUndef
  end.

(** Writing [v[k] = x].  The file is in strict mode: writing a property of
    a primitive throws. *)
Definition setProp (v : value) (k : string) (x : value) : result value :=
  match v with
  | VObj a fs => inl (VObj a (assign k x fs))
  | VUndef => inr (TypeError "Cannot set property of undefined")
  | VNull => inr (TypeError "Cannot set property of null")
  | _ => inr (TypeError "Cannot create property on a primitive")
  end.

(** [delete v[k]] on an object. *)
Definition deleteProp (v : value) (k : string) : value :=
  match v with
  | VObj a fs => VObj a (remove k fs)
  | _ => v
  end.

(** A property read that cannot throw: the receiver is an object. *)
Definition get (v : value) (k : string) : value :=
  match getProp v k with
  | inl x => x
  | inr _ => VUndef
  end.

(** The own properties of a value. *)
Definition properties (v : value) : list (string * value) :=
  match v with
  | VObj _ fs => fs
  | _ => []
  end.

(** An object's properties have distinct names, at every depth. *)
Fixpoint distinct (ks : list string) : bool :=
  match ks with
  | [] => true
  | k :: rest => negb (existsb (String.eqb k) rest) && distinct rest
  end.

Fixpoint wf (v : value) : bool :=
  match v with
  | VObj _ fs =>
      distinct (keys fs) &&
      (fix all (l : list (string * value)) : bool :=
         match l with
         | [] => true
         | (_, x) :: rest => wf x && all rest
         end) fs
  | _ => true
  end.

(** ** Gateway._mergeOptions

    The function mutates [defaultOptions] in place; here it returns the
    object after the call, with the error when the call threw part-way. *)

Definition merged : Type := (value * option exn)%type.

(** One store: [target[prop] = x]. *)
Definition store (target : value) (prop : string) (x : value) : merged :=
  match setProp target prop x with
  | inl t' => (t', None)
  | inr e => (target, Some e)
  end.

Fixpoint _mergeOptions (defaultOptions suppliedOptions : value)
  {struct suppliedOptions} : merged :=
  match suppliedOptions with
  | VObj _ props =>
      (fix each (props : list (string * value)) (target : value)
         {struct props} : merged :=
         match props with
         | [] => (target, None)
         | (prop, supplied) :: rest =>
             let '(target', thrown) :=
               if instanceofObject supplied && endsWith prop "Options" then
                 match getProp target prop with
                 | inr e => (target, Some e)
                 | inl current =>
                     if is_undefined current then store target prop supplied
                     else
                       (* the nested default is mutated where it is *)
                       let '(current', thrown) :=
                         _mergeOptions current supplied in
                       match target with
                       | VObj a fs => (VObj a (assign prop current' fs), thrown)
                       | _ => (target, thrown)
                       end
                 end
               else store target prop supplied in
             match thrown with
             | None => each rest target'
             | Some e => (target', Some e)
             end
         end) props defaultOptions
  | _ =>
      (* [for ... in] over a value without enumerable properties; never
         reached with a string, as both callers pass an object *)
      (defaultOptions, None)
  end.

(** The loop of [_mergeOptions] over the supplied properties, by name. *)
Definition merge_step (target : value) (prop : string) (supplied : value)
  : merged :=
  if instanceofObject supplied && endsWith prop "Options" then
    match getProp target prop with
    | inr e => (target, Some e)
    | inl current =>
        if is_undefined current then store target prop supplied
        else
          let '(current', thrown) := _mergeOptions current supplied in
          match target with
          | VObj a fs => (VObj a (assign prop current' fs), thrown)
          | _ => (target, thrown)
          end
    end
  else store target prop supplied.

Fixpoint merge_props (props : list (string * value)) (target : value)
  : merged :=
  match props with
  | [] => (target, None)
  | (prop, supplied) :: rest =>
      let '(target', thrown) := merge_step target prop supplied in
      match thrown with
      | None => merge_props rest target'
      | Some e => (target', Some e)
      end
  end.

(** ** The Gateway and what surrounds it *)

(** A Network instance: [new Network(gateway, channel)].  The class is in
    lib/network.js; the Gateway observes an instance's identity and hands
    it the channel. *)
Record Network : Type := mkNetwork { net_addr : addr; net_channel : value }.


(** The first argument of [connect]: a prebuilt Client (the source tests
    [config.constructor.name === 'Client']) or anything else, taken as a
    connection profile. *)
Inductive Config : Type :=
| ClientInstance (client : value)
| ConnectionProfile (ccp : value).

(** The calls that leave lib/gateway.js. *)
Inductive call : Type :=
| Client_getConfigSetting (name : string) (default : value)
| Client_loadFromConfig (ccp : value)
| Wallet_setUserContext (wallet client label : value)
| Wallet_export (wallet label : value)
| Client_setTlsClientCertAndKey (client cert key : value)
| Node_require (id : value)
| Client_getChannel (client : value) (name : string) (throwError : bool)
| Client_newChannel (client : value) (name : string)
| Network_initialize (network : Network) (discovery : value)
| Network_dispose (network : Network)
| User_getIdentity (user : value)
| Identity_getMSPId (identity : value)
| QueryHandler_new (cls channel mspId peerMap queryHandlerOptions : value)
| QueryHandler_initialize (queryHandler : value).

(** A call with the answer the world gave it. *)
Definition event : Type := (call * result value)%type.

(** The fields of a Gateway; [networks] is the [Map], in insertion order. *)
Record Gateway : Type := mkGateway {
  client : value;
  wallet : value;
  networks : list (string * Network);
  options : value;
  currentIdentity : value;
  queryHandlerClass : value
}.

(** [Map.prototype.get], [set], [values] on the network cache. *)
Fixpoint Map_get (k : string) (m : list (string * Network)) : option Network :=
  match m with
  | [] => None
  | (k', n) :: rest => if (k' =? k)%string then Some n else Map_get k rest
  end.

Fixpoint Map_set (k : string) (n : Network) (m : list (string * Network))
  : list (string * Network) :=
  match m with
  | [] => [(k, n)]
  | (k', n') :: rest =>
      if (k' =? k)%string then (k, n) :: rest else (k', n') :: Map_set k n rest
  end.

Definition Map_values (m : list (string * Network)) : list Network :=
  map snd m.

Section Gateway.

(** The world outside the Gateway and how it answers a call. *)
Variable World : Type.
Variable respond : call -> World -> result value * World.

(** [EventStrategies.MSPID_SCOPE_ALLFORTX], a function of
    lib/impl/event/defaulteventhandlerstrategies.js. *)
Variable MSPID_SCOPE_ALLFORTX : value.

(** The machine a method runs on: the Gateway object, the next free
    address, the calls made so far with their answers (oldest first)
    and the world. *)
Record Machine : Type := mkMachine {
  this : Gateway;
  next_addr : addr;
  trace : list event;
  world : World
}.

(** State and exception monad: a thrown error keeps the state reached. *)
Definition M (A : Type) : Type := Machine -> result A * Machine.

Definition ret {A} (a : A) : M A := fun m => (inl a, m).
Definition throw {A} (e : exn) : M A := fun m => (inr e, m).
Definition bind {A B} (c : M A) (k : A -> M B) : M B :=
  fun m =>
    match c m with
    | (inl a, m') => k a m'
    | (inr e, m') => (inr e, m')
    end.

(** [try { c } catch (error) { h error }] *)
Definition try_catch {A} (c : M A) (h : exn -> M A) : M A :=
  fun m =>
    match c m with
    | (inl a, m') => (inl a, m')
    | (inr e, m') => h e m'
    end.

Definition lift {A} (r : result A) : M A := fun m => (r, m).

Definition read {A} (f : Gateway -> A) : M A := fun m => (inl (f (this m)), m).

Definition update (f : Gateway -> Gateway) : M unit :=
  fun m => (inl tt, mkMachine (f (this m)) (next_addr m) (trace m) (world m)).

(** An external call: recorded, then answered by the world. *)
Definition extern (c : call) : M value :=
  fun m =>
    let '(r, w') := respond c (world m) in
    (r, mkMachine (this m) (next_addr m) (trace m ++ [(c, r)]) w').

(** A fresh object address, for [new] and object literals. *)
Definition alloc : M addr :=
  fun m => (inl (next_addr m),
            mkMachine (this m) (S (next_addr m)) (trace m) (world m)).

Notation "x <- c ;; k" := (bind c (fun x => k))
  (at level 61, c at next level, right associativity).
Notation "c ;;; k" := (bind c (fun _ => k))
  (at level 61, right associativity).

Definition when (b : bool) (c : M unit) : M unit :=
  if b then c else ret tt.

(** The receiver of a method call: [null.f] and [undefined.f] throw
    before the arguments are evaluated. *)
Definition receiver (v : value) : M unit :=
  match v with
  | VUndef => throw (TypeError "Cannot read property of undefined")
  | VNull => throw (TypeError "Cannot read property of null")
  | _ => ret tt
  end.

(** [v.k] as a step of a method. *)
Definition prop (v : value) (k : string) : M value := lift (getProp v k).

(** *** constructor *)

Definition constructor : M unit :=
  o <- alloc ;;
  q <- alloc ;;
  e <- alloc ;;
  d <- alloc ;;
  enabled <- extern (Client_getConfigSetting "initialize-with-discovery"
                       (VBool true)) ;;
  update (fun _ =>
    mkGateway VNull VNull []
      (VObj o
         [("queryHandler", VStr "./impl/query/defaultqueryhandler");
          ("queryHandlerOptions", VObj q []);
          ("eventHandlerOptions",
            VObj e [("commitTimeout", VNum 300);
                    ("strategy", MSPID_SCOPE_ALLFORTX)]);
          ("discovery", VObj d [("enabled", enabled)])])
      VUndef VUndef).

(** *** connect *)

Definition set_options (o : value) (g : Gateway) : Gateway :=
  mkGateway (client g) (wallet g) (networks g) o
    (currentIdentity g) (queryHandlerClass g).

Definition set_client (c : value) (g : Gateway) : Gateway :=
  mkGateway c (wallet g) (networks g) (options g)
    (currentIdentity g) (queryHandlerClass g).

Definition set_currentIdentity (u : value) (g : Gateway) : Gateway :=
  mkGateway (client g) (wallet g) (networks g) (options g)
    u (queryHandlerClass g).

Definition set_queryHandlerClass (c : value) (g : Gateway) : Gateway :=
  mkGateway (client g) (wallet g) (networks g) (options g)
    (currentIdentity g) c.

Definition set_networks (n : list (string * Network)) (g : Gateway)
  : Gateway :=
  mkGateway (client g) (wallet g) n (options g)
    (currentIdentity g) (queryHandlerClass g).

(** [!options || !options.wallet] *)
Definition no_wallet (suppliedOptions : value) : M bool :=
  if negb (truthy suppliedOptions) then ret true
  else w <- prop suppliedOptions "wallet" ;; ret (negb (truthy w)).

(** [options.queryHandler &&
     (this.options.queryHandler !== options.queryHandler)] *)
Definition other_queryHandler (suppliedOptions : value) : M bool :=
  supplied <- prop suppliedOptions "queryHandler" ;;
  if truthy supplied then
    o <- read options ;;
    current <- prop o "queryHandler" ;;
    ret (negb (strict_eq current supplied))
  else ret false.

(** [Gateway._mergeOptions(this.options, options)] on the machine. *)
Definition merge_into_options (suppliedOptions : value) : M unit :=
  o <- read options ;;
  let '(o', thrown) := _mergeOptions o suppliedOptions in
  update (set_options o') ;;;
  match thrown with
  | None => ret tt
  | Some e => throw e
  end.

(** The string a template literal makes of a value (a plain object
    prints through [Object.prototype.toString]). *)
Definition toString (v : value) : string :=
  match v with
  | VUndef => "undefined"
  | VNull => "null"
  | VBool true => "true"
  | VBool false => "false"
  | VNum n => NilZero.string_of_int (Z.to_int n)
  | VStr s => s
  | VObj _ _ => "[object Object]"
  end.

Definition load_client (config : Config) : M unit :=
  match config with
  | ConnectionProfile ccp =>
      c <- extern (Client_loadFromConfig ccp) ;;
      update (set_client c)
  | ClientInstance c => update (set_client c)
  end.

(** Lines 141-147: drop the default queryHandlerOptions for another
    query handler, then merge. *)
Definition prepare_options (suppliedOptions : value) : M unit :=
  other <- other_queryHandler suppliedOptions ;;
  when other
    (update (fun g =>
       set_options (deleteProp (options g) "queryHandlerOptions") g)) ;;;
  merge_into_options suppliedOptions.

(** Lines 160-164: setup an initial identity for the Gateway. *)
Definition setup_identity (suppliedOptions : value) : M unit :=
  identity <- prop suppliedOptions "identity" ;;
  when (truthy identity)
    (w <- prop suppliedOptions "wallet" ;;
     receiver w ;;;
     c <- read client ;;
     label <- prop suppliedOptions "identity" ;;
     user <- extern (Wallet_setUserContext w c label) ;;
     update (set_currentIdentity user)).

(** Lines 166-169. *)
Definition setup_clientTlsIdentity (suppliedOptions : value) : M unit :=
  clientTlsIdentity <- prop suppliedOptions "clientTlsIdentity" ;;
  when (truthy clientTlsIdentity)
    (w <- prop suppliedOptions "wallet" ;;
     receiver w ;;;
     label <- prop suppliedOptions "clientTlsIdentity" ;;
     tlsIdentity <- extern (Wallet_export w label) ;;
     c <- read client ;;
     receiver c ;;;
     certificate <- prop tlsIdentity "certificate" ;;
     privateKey <- prop tlsIdentity "privateKey" ;;
     extern (Client_setTlsClientCertAndKey c certificate privateKey) ;;;
     ret tt).

(** Lines 171-173. *)
Definition setup_tlsInfo (suppliedOptions : value) : M unit :=
  tlsInfo <- prop suppliedOptions "tlsInfo" ;;
  use_tlsInfo <-
    (if truthy tlsInfo then
       i <- prop suppliedOptions "clientTlsIdentity" ;; ret (negb (truthy i))
     else ret false) ;;
  when use_tlsInfo
    (c <- read client ;;
     receiver c ;;;
     info <- prop suppliedOptions "tlsInfo" ;;
     certificate <- prop info "certificate" ;;
     key <- prop info "key" ;;
     extern (Client_setTlsClientCertAndKey c certificate key) ;;;
     ret tt).

(** The message of the error thrown for a query handler that does not
    load. *)
Definition unable_to_load (queryHandler : value) (error : exn) : string :=
  "unable to load provided query handler: " ++ toString queryHandler
  ++ ". Error " ++ exn_toString error.

(** Lines 175-184: load in the query handler plugin. *)
Definition load_queryHandler : M unit :=
  o <- read options ;;
  queryHandler <- prop o "queryHandler" ;;
  when (truthy queryHandler)
    (try_catch
       (o' <- read options ;;
        id <- prop o' "queryHandler" ;;
        cls <- extern (Node_require id) ;;
        update (set_queryHandlerClass cls))
       (fun error =>
          o' <- read options ;;
          id <- prop o' "queryHandler" ;;
          throw (Error (unable_to_load id error)))).

Definition connect (config : Config) (suppliedOptions : value) : M unit :=
  missing <- no_wallet suppliedOptions ;;
  if missing then
    throw (Error "A wallet must be assigned to a Gateway instance")
  else
    prepare_options suppliedOptions ;;;
    load_client config ;;;
    setup_identity suppliedOptions ;;;
    setup_clientTlsIdentity suppliedOptions ;;;
    setup_tlsInfo suppliedOptions ;;;
    load_queryHandler.

(** *** getCurrentIdentity, getClient, getOptions *)

Definition getCurrentIdentity : M value := read currentIdentity.
Definition getClient : M value := read client.
Definition getOptions : M value := read options.

(** *** disconnect *)

Fixpoint dispose_all (ns : list Network) : M unit :=
  match ns with
  | [] => ret tt
  | network :: rest =>
      extern (Network_dispose network) ;;; dispose_all rest
  end.

Definition disconnect : M unit :=
  ns <- read (fun g => Map_values (networks g)) ;;
  dispose_all ns ;;;
  update (set_networks []).

(** *** getNetwork *)

Definition getNetwork (networkName : string) : M Network :=
  existingNetwork <- read (fun g => Map_get networkName (networks g)) ;;
  match existingNetwork with
  | Some network => ret network
  | None =>
      c <- read client ;;
      receiver c ;;;
      found <- extern (Client_getChannel c networkName false) ;;
      channel <-
        (if strict_eq found VNull then
           (* not found in the in-memory cache or the CCP *)
           extern (Client_newChannel c networkName)
         else ret found) ;;
      a <- alloc ;;
      let newNetwork := mkNetwork a channel in
      o <- read options ;;
      discovery <- prop o "discovery" ;;
      extern (Network_initialize newNetwork discovery) ;;;
      update (fun g =>
        set_networks (Map_set networkName newNetwork (networks g)) g) ;;;
      ret newNetwork
  end.

(** *** _createQueryHandler *)

Definition _createQueryHandler (channel peerMap : value) : M value :=
  cls <- read queryHandlerClass ;;
  if truthy cls then
    user <- getCurrentIdentity ;;
    receiver user ;;;
    identity <- extern (User_getIdentity user) ;;
    receiver identity ;;;
    currentmspId <- extern (Identity_getMSPId identity) ;;
    o <- read options ;;
    queryHandlerOptions <- prop o "queryHandlerOptions" ;;
    queryHandler <-
      extern (QueryHandler_new cls channel currentmspId peerMap
                queryHandlerOptions) ;;
    receiver queryHandler ;;;
    extern (QueryHandler_initialize queryHandler) ;;;
    ret queryHandler
  else ret VNull.

(** A Gateway fresh from [new Gateway()], in world [w] with free
    addresses from [a] on. *)
Definition blank : Gateway :=
  mkGateway VUndef VUndef [] VUndef VUndef VUndef.

Definition new_Gateway (a : addr) (w : World) : Machine :=
  snd (constructor (mkMachine blank a [] w)).

(** The calls made between machine [m] and a later machine [m']. *)
Definition new_events (m m' : Machine) : list event :=
  skipn (length (trace m)) (trace m').

End Gateway.

Arguments mkMachine {World}.
Arguments this {World}.
Arguments next_addr {World}.
Arguments trace {World}.
Arguments world {World}.
Arguments ret {World A}.
Arguments throw {World A}.
Arguments bind {World A B}.
Arguments try_catch {World A}.
Arguments lift {World A}.
Arguments read {World A}.
Arguments update {World}.
Arguments extern {World}.
Arguments alloc {World}.
Arguments when {World}.
Arguments receiver {World}.
Arguments prop {World}.
Arguments constructor {World}.
Arguments no_wallet {World}.
Arguments other_queryHandler {World}.
Arguments merge_into_options {World}.
Arguments prepare_options {World}.
Arguments load_client {World}.
Arguments setup_identity {World}.
Arguments setup_clientTlsIdentity {World}.
Arguments setup_tlsInfo {World}.
Arguments load_queryHandler {World}.
Arguments connect {World}.
Arguments getCurrentIdentity {World}.
Arguments getClient {World}.
Arguments getOptions {World}.
Arguments dispose_all {World}.
Arguments disconnect {World}.
Arguments getNetwork {World}.
Arguments _createQueryHandler {World}.
Arguments new_Gateway {World}.
Arguments new_events {World}.

(** ** A small world for the examples *)

Module Demo.

Definition strategy : value := VObj 900 [].
Definition the_wallet : value := VObj 901 [].
Definition the_client : value := VObj 902 [].
Definition the_user : value := VObj 903 [].
Definition the_identity : value := VObj 904 [].
Definition the_class : value := VObj 905 [].
Definition the_handler : value := VObj 906 [].
Definition tls_identity : value :=
  VObj 907 [("certificate", VStr "wallet-cert");
            ("privateKey", VStr "wallet-key")].
Definition tls_info : value :=
  VObj 908 [("certificate", VStr "info-cert"); ("key", VStr "info-key")].
Definition channel (name : string) : value :=
  VObj 909 [("name", VStr name)].

(** The world counts the calls it has answered.  It knows the channel
    [mychannel] and the module of the default query handler. *)
Definition respond (c : call) (w : nat) : result value * nat :=
  (match c with
   | Client_getConfigSetting _ default => inl default
   | Client_loadFromConfig _ => inl the_client
   | Wallet_setUserContext _ _ label =>
       inl (VObj 903 [("name", label)])
   | Wallet_export _ _ => inl tls_identity
   | Client_setTlsClientCertAndKey _ _ _ => inl VUndef
   | Node_require id =>
       if strict_eq id (VStr "./impl/query/defaultqueryhandler")
       then inl the_class
       else inr (Error ("Cannot find module '" ++ toString id ++ "'"))
   | Client_getChannel _ name _ =>
       if (name =? "mychannel")%string then inl (channel name)
       else inl VNull
   | Client_newChannel _ name => inl (channel name)
   | Network_initialize _ _ => inl VUndef
   | Network_dispose _ => inl VUndef
   | User_getIdentity _ => inl the_identity
   | Identity_getMSPId _ => inl (VStr "Org1MSP")
   | QueryHandler_new _ _ _ _ _ => inl the_handler
   | QueryHandler_initialize _ => inl VUndef
   end, S w).

Definition fresh : Machine nat := new_Gateway respond strategy 0 0.

Definition wallet_only : value := VObj 10 [("wallet", the_wallet)].

Definition with_identity (label : string) : value :=
  VObj 11 [("wallet", the_wallet); ("identity", VStr label)].

Definition profile : Config := ConnectionProfile (VStr "network.json").

(** The machine after [connect(ccp, {wallet, identity: 'admin'})]. *)
Definition connected : Machine nat :=
  snd (connect respond profile (with_identity "admin") fresh).

(** Options without a wallet. *)
Definition identity_only : value := VObj 12 [("identity", VStr "admin")].

(** Options with a client TLS identity and TLS info. *)
Definition tls_options : value :=
  VObj 13 [("wallet", the_wallet); ("identity", VStr "admin");
           ("clientTlsIdentity", VStr "tls"); ("tlsInfo", tls_info)].

(** Options with a query handler of their own, which does not load. *)
Definition other_handler : value :=
  VObj 14 [("wallet", the_wallet); ("queryHandler", VStr "my/handler");
           ("queryHandlerOptions", VObj 15 [("strategy", VStr "round-robin")])].

(** Options that override the commit timeout only. *)
Definition shorter_timeout : value :=
  VObj 16 [("wallet", the_wallet);
           ("eventHandlerOptions", VObj 17 [("commitTimeout", VNum 30)])].

(** A connected Gateway with the networks [a] and [b] in its cache. *)
Definition two_networks : Machine nat :=
  snd (getNetwork respond "b" (snd (getNetwork respond "a" connected))).

(** A world where the network of channel [b] cannot be disposed of. *)
Definition stuck (c : call) (w : nat) : result value * nat :=
  match c with
  | Network_dispose n =>
      if strict_eq (get (net_channel n) "name") (VStr "b")
      then (inr (Error "channel b is busy"), S w)
      else respond c w
  | _ => respond c w
  end.

(** A world where no network can be initialized. *)
Definition offline (c : call) (w : nat) : result value * nat :=
  match c with
  | Network_initialize _ _ => (inr (Error "no peers available"), S w)
  | _ => respond c w
  end.

(** Options that switch the query handler off. *)
Definition no_handler : value :=
  VObj 18 [("wallet", the_wallet); ("queryHandler", VNull)].

End Demo.

(** * Specification *)

(** [prop] holds a nested options object: the merge recurses into it. *)
Definition nested_options (prop : string) (supplied : value) : bool :=
  instanceofObject supplied && endsWith prop "Options".

(** What one step leaves in the property it merges, when it returns. *)
Definition merged_value (current : value) (prop : string) (supplied : value)
  : value :=
  if nested_options prop supplied then
    if is_undefined current then supplied
    else fst (_mergeOptions current supplied)
  else supplied.

Section Properties.

Context {World : Type}.
Variable respond : call -> World -> result value * World.
Variable MSPID_SCOPE_ALLFORTX : value.

Local Abbreviation M := (M World).
Local Abbreviation Machine := (Machine World).

(** [steps R c]: every run of [c], returning or throwing, takes a machine
    to an [R]-related one. *)
Definition steps {A} (R : Machine -> Machine -> Prop) (c : M A) : Prop :=
  forall m, R m (snd (c m)).

(** A field of the Gateway keeps its value. *)
Definition keeps {B} (f : Gateway -> B) (m m' : Machine) : Prop :=
  f (this m') = f (this m).

(** The trace grows by events that all satisfy [P]. *)
Definition emits (P : event -> Prop) (m m' : Machine) : Prop :=
  exists es, trace m' = trace m ++ es /\ Forall P es.

(** The rest of [connect], after the options are merged. *)
Definition establish (config : Config) (suppliedOptions : value) : M unit :=
  bind (load_client respond config) (fun _ =>
  bind (setup_identity respond suppliedOptions) (fun _ =>
  bind (setup_clientTlsIdentity respond suppliedOptions) (fun _ =>
  bind (setup_tlsInfo respond suppliedOptions) (fun _ =>
  load_queryHandler respond)))).

(** [connect] drops the default queryHandlerOptions: the supplied
    options name a query handler that is not the current one. *)
Definition drops_queryHandlerOptions (current supplied : value) : bool :=
  truthy (get supplied "queryHandler") &&
  negb (strict_eq (get current "queryHandler") (get supplied "queryHandler")).

(** The options that [connect] merges the supplied ones into. *)
Definition prepared (current supplied : value) : value :=
  if drops_queryHandlerOptions current supplied
  then deleteProp current "queryHandlerOptions"
  else current.

(** No property of [v] has a name that ends in 'Options'. *)
Definition flat (v : value) : Prop :=
  forall k, endsWith k "Options" = true -> get v k = VUndef.

(** The options a constructor leaves, at addresses from [o] on. *)
Definition default_options (o : addr) (enabled : value) : value :=
  VObj o
    [("queryHandler", VStr "./impl/query/defaultqueryhandler");
     ("queryHandlerOptions", VObj (S o) []);
     ("eventHandlerOptions",
       VObj (S (S o)) [("commitTimeout", VNum 300);
                       ("strategy", MSPID_SCOPE_ALLFORTX)]);
     ("discovery", VObj (S (S (S o))) [("enabled", enabled)])].

(** [new Gateway()] returned machine [m]. *)
Definition constructed (m : Machine) : Prop :=
  exists a w,
    constructor respond MSPID_SCOPE_ALLFORTX (mkMachine blank a [] w)
    = (inl tt, m).

(** [getOptions] reports the default event handler options: a commit
    timeout of 300 seconds and the strategy MSPID_SCOPE_ALLFORTX. *)
Definition reports_defaults (m : Machine) : Prop :=
  exists o,
    getOptions m = (inl o, m) /\
    get (get o "eventHandlerOptions") "commitTimeout" = VNum 300 /\
    get (get o "eventHandlerOptions") "strategy" = MSPID_SCOPE_ALLFORTX.

(** The supplied options override one of the two: they have an
    eventHandlerOptions property that is not an object, or is an object
    with a commitTimeout or a strategy. *)
Definition overrides_defaults (suppliedOptions : value) : bool :=
  match lookup "eventHandlerOptions" (properties suppliedOptions) with
  | None => false
  | Some (VObj _ sub) =>
      existsb (fun k => (k =? "commitTimeout")%string || (k =? "strategy")%string)
        (keys sub)
  | Some _ => true
  end.

(** Kinds of calls. *)
Definition is_setUserContext (c : call) : bool :=
  match c with Wallet_setUserContext _ _ _ => true | _ => false end.

Definition is_export (c : call) : bool :=
  match c with Wallet_export _ _ => true | _ => false end.

Definition is_setTls (c : call) : bool :=
  match c with Client_setTlsClientCertAndKey _ _ _ => true | _ => false end.

Definition is_require (c : call) : bool :=
  match c with Node_require _ => true | _ => false end.

(** No call of the kind [f] is made. *)
Definition quiet (f : call -> bool) : Machine -> Machine -> Prop :=
  emits (fun e => f (fst e) = false).

(** [c] after a step that ended with [r]: a throw skips it. *)
Definition after (r : result unit) (c : M unit) : M unit :=
  fun m =>
    match r with
    | inl _ => c m
    | inr e => (inr e, m)
    end.

(** The runs of the six steps of [connect], one after the other. *)
Definition stage1 (s : value) (m : Machine) :=
  prepare_options s m.
Definition stage2 (config : Config) (s : value) (m : Machine) :=
  after (fst (stage1 s m)) (load_client respond config) (snd (stage1 s m)).
Definition stage3 (config : Config) (s : value) (m : Machine) :=
  after (fst (stage2 config s m)) (setup_identity respond s)
    (snd (stage2 config s m)).
Definition stage4 (config : Config) (s : value) (m : Machine) :=
  after (fst (stage3 config s m)) (setup_clientTlsIdentity respond s)
    (snd (stage3 config s m)).
Definition stage5 (config : Config) (s : value) (m : Machine) :=
  after (fst (stage4 config s m)) (setup_tlsInfo respond s)
    (snd (stage4 config s m)).
Definition stage6 (config : Config) (s : value) (m : Machine) :=
  after (fst (stage5 config s m)) (load_queryHandler respond)
    (snd (stage5 config s m)).

(** The calls of a trace that concern the TLS credentials. *)
Definition tls_events (es : list event) : list event :=
  filter (fun e => is_export (fst e) || is_setTls (fst e)) es.

(** How a step that ends with the answer [ans] of its last call ends. *)
Definition outcome (ans : result value) : result unit :=
  match ans with
  | inl _ => inl tt
  | inr e => inr e
  end.



(** The addresses of [l] are pairwise different. *)
Fixpoint distinct_addrs (l : list addr) : bool :=
  match l with
  | [] => true
  | a :: rest => negb (existsb (Nat.eqb a) rest) && distinct_addrs rest
  end.

(** The invariant of the network cache: the cached instances are
    distinct objects at addresses already taken, under distinct names. *)
Definition cache_ok (m : Machine) : bool :=
  distinct_addrs (map net_addr (Map_values (networks (this m)))) &&
  forallb (fun n => (net_addr n <? next_addr m)%nat)
    (Map_values (networks (this m))) &&
  distinct (map fst (networks (this m))).

(** The machines a program can get a Gateway into. *)
Inductive reachable : Machine -> Prop :=
| reach_new m : constructed m -> reachable m
| reach_connect m config s :
    reachable m -> reachable (snd (connect respond config s m))
| reach_getNetwork m name :
    reachable m -> reachable (snd (getNetwork respond name m))
| reach_disconnect m :
    reachable m -> reachable (snd (disconnect respond m))
| reach_createQueryHandler m channel peerMap :
    reachable m ->
    reachable (snd (_createQueryHandler respond channel peerMap m)).

(** The cache is kept and no address is given back. *)
Definition cache_kept (m m' : Machine) : Prop :=
  networks (this m') = networks (this m) /\
  (next_addr m <= next_addr m')%nat.

(** Every [_dispose] returns. *)
Definition dispose_returns : Prop :=
  forall n w, exists v w', respond (Network_dispose n) w = (inl v, w').

(** The options of [connect] carry no wallet: there are no options, or
    their [wallet] is missing (or another falsy value). *)
Definition omits_wallet (suppliedOptions : value) : bool :=
  negb (truthy suppliedOptions) || negb (truthy (get suppliedOptions "wallet")).

(** The call of an event returned, it did not throw. *)
Definition returned (e : event) : Prop := exists v, snd e = inl v.

(** The error [connect] throws when the call [c] has thrown [e]: the error
    itself, but for [require], whose error is wrapped. *)
Definition rethrown (c : call) (e : exn) : exn :=
  match c with
  | Node_require id => Error (unable_to_load id e)
  | _ => e
  end.

(** A run that made the calls [es] and ended with [r] stopped at the first
    call that threw: all calls returned, or all but the last did and the
    run threw the error of the last. *)
Definition orderly {A} (r : result A) (es : list event) : Prop :=
  Forall returned es \/
  exists es0 c e,
    es = es0 ++ [(c, inr e)] /\ Forall returned es0 /\ r = inr (rethrown c e).

Definition runs_orderly {A} (c : M A) : Prop :=
  forall m, exists es,
    trace (snd (c m)) = trace m ++ es /\ orderly (fst (c m)) es.

(** * Properties *)

(** ** Properties of an object's properties *)

Lemma lookup_assign_same k v fs : lookup k (assign k v fs) = Some v.
Proof.
induction fs as [|[k' v'] fs IH]; simpl.
- now rewrite String.eqb_refl.
- destruct (String.eqb_spec k' k) as [->|Hne]; simpl.
  + now rewrite String.eqb_refl.
  + destruct (String.eqb_spec k' k); [contradiction | exact IH].
Qed.

Lemma lookup_assign_other k k' v fs :
k <> k' -> lookup k (assign k' v fs) = lookup k fs.
Proof.
intros Hne. induction fs as [|[k0 v0] fs IH]; simpl.
- destruct (String.eqb_spec k' k); congruence.
- destruct (String.eqb_spec k0 k') as [->|Hne0]; simpl.
  + destruct (String.eqb_spec k' k); congruence.
  + now rewrite IH.
Qed.

Lemma lookup_remove_same k fs : lookup k (remove k fs) = None.
Proof.
induction fs as [|[k0 v0] fs IH]; simpl; [reflexivity|].
destruct (String.eqb_spec k0 k) as [->|Hne]; [exact IH|].
simpl. destruct (String.eqb_spec k0 k); [contradiction | exact IH].
Qed.

Lemma lookup_remove_other k k' fs :
k <> k' -> lookup k (remove k' fs) = lookup k fs.
Proof.
intros Hne. induction fs as [|[k0 v0] fs IH]; simpl; [reflexivity|].
destruct (String.eqb_spec k0 k') as [->|Hne0].
- rewrite IH. destruct (String.eqb_spec k' k); congruence.
- simpl. now rewrite IH.
Qed.

Lemma lookup_None_keys k fs : lookup k fs = None <-> ~ In k (keys fs).
Proof.
induction fs as [|[k0 v0] fs IH]; simpl; [tauto|].
destruct (String.eqb_spec k0 k) as [->|Hne].
- split; [discriminate | intros H; exfalso; apply H; now left].
- rewrite IH. tauto.
Qed.

Lemma lookup_None_keys_not k fs : lookup k fs <> None -> In k (keys fs).
Proof.
intros H. destruct (in_dec string_dec k (keys fs)) as [Hin|Hn]; [exact Hin|].
apply lookup_None_keys in Hn. contradiction.
Qed.

Lemma get_obj a fs k :
get (VObj a fs) k = match lookup k fs with Some x => x | None => VUndef end.
Proof. unfold get; simpl. now destruct (lookup k fs). Qed.

Lemma get_assign_same a fs k v : get (VObj a (assign k v fs)) k = v.
Proof. now rewrite get_obj, lookup_assign_same. Qed.

Lemma get_assign_other a fs k k' v :
k <> k' -> get (VObj a (assign k' v fs)) k = get (VObj a fs) k.
Proof. intros H. now rewrite !get_obj, lookup_assign_other. Qed.

Lemma distinct_cons k ks :
distinct (k :: ks) = true <-> ~ In k ks /\ distinct ks = true.
Proof.
simpl. rewrite andb_true_iff, negb_true_iff. split.
- intros [Hex Hd]. split; [|exact Hd]. intros Hin.
  assert (existsb (String.eqb k) ks = true) as E.
  { apply existsb_exists. exists k. split; [exact Hin | apply String.eqb_refl]. }
  congruence.
- intros [Hn Hd]. split; [|exact Hd].
  destruct (existsb (String.eqb k) ks) eqn:E; [|reflexivity].
  apply existsb_exists in E. destruct E as [x [Hx Hk]].
  apply String.eqb_eq in Hk. subst x. contradiction.
Qed.

Lemma getProp_obj v k : instanceofObject v = true -> getProp v k = inl (get v k).
Proof.
destruct v; try discriminate. intros _. unfold get. simpl.
now destruct (lookup k fields).
Qed.

Lemma getProp_cases v :
(forall k, getProp v k = inl (get v k)) \/
(exists e, forall k, getProp v k = inr e).
Proof.
destruct v; try (left; intros k; reflexivity);
  try (right; eexists; intros k; reflexivity).
left. intros k. now apply getProp_obj.
Qed.

Lemma getProp_truthy v k : truthy v = true -> getProp v k = inl (get v k).
Proof.
destruct v; try discriminate; try reflexivity. intros _. now apply getProp_obj.
Qed.

(** ** Properties of _mergeOptions *)

Lemma mergeOptions_props d a props :
_mergeOptions d (VObj a props) = merge_props props d.
Proof.
revert d. induction props as [|[k sv] rest IH]; intros d.
- reflexivity.
- cbn [merge_props]. unfold merge_step.
  change (_mergeOptions d (VObj a ((k, sv) :: rest)))
    with (let '(target', thrown) :=
            if instanceofObject sv && endsWith k "Options" then
              match getProp d k with
              | inr e => (d, Some e)
              | inl current =>
                  if is_undefined current then store d k sv
                  else
                    let '(current', thrown) := _mergeOptions current sv in
                    match d with
                    | VObj a0 fs => (VObj a0 (assign k current' fs), thrown)
                    | _ => (d, thrown)
                    end
              end
            else store d k sv in
          match thrown with
          | None => _mergeOptions target' (VObj a rest)
          | Some e => (target', Some e)
          end).
  destruct (if instanceofObject sv && endsWith k "Options" then _ else _)
    as [t [e|]]; [reflexivity | apply IH].
Qed.

Lemma merge_step_obj a fs k sv :
exists fs', fst (merge_step (VObj a fs) k sv) = VObj a fs'.
Proof.
unfold merge_step, store. simpl.
destruct (instanceofObject sv && endsWith k "Options"); [|simpl; eauto].
destruct (lookup k fs) as [cur|]; simpl; [|eauto].
destruct (is_undefined cur); [simpl; eauto|].
destruct (_mergeOptions cur sv). simpl. eauto.
Qed.

Lemma merge_props_obj props a fs :
exists fs', fst (merge_props props (VObj a fs)) = VObj a fs'.
Proof.
revert fs. induction props as [|[k sv] rest IH]; intros fs; simpl; [eauto|].
destruct (merge_step_obj a fs k sv) as [fs1 H1].
destruct (merge_step (VObj a fs) k sv) as [t1 [e|]]; simpl in *; subst t1;
  eauto.
Qed.

(** One step touches no other property, whether it throws or not. *)
Lemma merge_step_frame a fs k sv k' :
k' <> k ->
get (fst (merge_step (VObj a fs) k sv)) k' = get (VObj a fs) k'.
Proof.
intros Hne. unfold merge_step, store. simpl.
destruct (instanceofObject sv && endsWith k "Options").
- destruct (lookup k fs) as [cur|]; simpl.
  + destruct (is_undefined cur); simpl.
    * now apply get_assign_other.
    * destruct (_mergeOptions cur sv); simpl. now apply get_assign_other.
  + now apply get_assign_other.
- simpl. now apply get_assign_other.
Qed.

Lemma merge_step_value a fs k sv :
get (fst (merge_step (VObj a fs) k sv)) k
= merged_value (get (VObj a fs) k) k sv.
Proof.
unfold merge_step, merged_value, nested_options, store.
rewrite get_obj. simpl.
destruct (instanceofObject sv && endsWith k "Options").
- destruct (lookup k fs) as [cur|]; simpl.
  + destruct (is_undefined cur); simpl.
    * apply get_assign_same.
    * destruct (_mergeOptions cur sv); simpl. apply get_assign_same.
  + apply get_assign_same.
- simpl. apply get_assign_same.
Qed.

(** A step on an object throws only from inside the nested merge. *)
Lemma merge_step_thrown a fs k sv :
snd (merge_step (VObj a fs) k sv)
= if nested_options k sv then
    if is_undefined (get (VObj a fs) k) then None
    else snd (_mergeOptions (get (VObj a fs) k) sv)
  else None.
Proof.
unfold merge_step, nested_options, store. rewrite get_obj. simpl.
destruct (instanceofObject sv && endsWith k "Options"); [|reflexivity].
destruct (lookup k fs) as [cur|]; simpl; [|reflexivity].
destruct (is_undefined cur); [reflexivity|].
now destruct (_mergeOptions cur sv).
Qed.

(** Properties the supplied object does not have keep their value, even
  when the merge throws part-way. *)
Lemma merge_props_frame props a fs k :
~ In k (keys props) ->
get (fst (merge_props props (VObj a fs))) k = get (VObj a fs) k.
Proof.
revert fs. induction props as [|[k0 sv] rest IH]; intros fs Hn; simpl.
- reflexivity.
- simpl in Hn.
  assert (k <> k0) as Hne by (intros ->; apply Hn; now left).
  assert (~ In k (keys rest)) as Hr by (intros H; apply Hn; now right).
  pose proof (merge_step_frame a fs k0 sv k Hne) as Hf.
  destruct (merge_step_obj a fs k0 sv) as [fs1 H1].
  destruct (merge_step (VObj a fs) k0 sv) as [t1 [e|]]; simpl in *; subst t1.
  + exact Hf.
  + rewrite IH by exact Hr. exact Hf.
Qed.

(** A supplied property holds its merged value once the loop has reached
  it, and its old value before. *)
Lemma merge_props_reached props a fs k sv :
distinct (keys props) = true ->
lookup k props = Some sv ->
get (fst (merge_props props (VObj a fs))) k = get (VObj a fs) k \/
get (fst (merge_props props (VObj a fs))) k
= merged_value (get (VObj a fs) k) k sv.
Proof.
revert fs. induction props as [|[k0 v0] rest IH]; intros fs Hd Hl; simpl in *.
- discriminate.
- apply (proj1 (distinct_cons k0 (keys rest))) in Hd. destruct Hd as [Hn Hd].
  destruct (merge_step_obj a fs k0 v0) as [fs1 H1].
  destruct (String.eqb_spec k0 k) as [->|Hne].
  + injection Hl as ->. right.
    pose proof (merge_step_value a fs k sv) as Hv.
    destruct (merge_step (VObj a fs) k sv) as [t1 [e|]]; simpl in *; subst t1.
    * exact Hv.
    * rewrite merge_props_frame by exact Hn. exact Hv.
  + pose proof (merge_step_frame a fs k0 v0 k (not_eq_sym Hne)) as Hf.
    destruct (merge_step (VObj a fs) k0 v0) as [t1 [e|]]; simpl in *; subst t1.
    * left. exact Hf.
    * destruct (IH fs1 Hd Hl) as [H|H]; rewrite H, Hf; auto.
Qed.

(** When the merge returns, every supplied property holds its merged value
  and every nested merge has returned. *)
Lemma merge_props_returned props a fs d' k sv :
distinct (keys props) = true ->
merge_props props (VObj a fs) = (d', None) ->
lookup k props = Some sv ->
get d' k = merged_value (get (VObj a fs) k) k sv /\
(nested_options k sv = true ->
 is_undefined (get (VObj a fs) k) = false ->
 snd (_mergeOptions (get (VObj a fs) k) sv) = None).
Proof.
revert fs. induction props as [|[k0 v0] rest IH]; intros fs Hd Hm Hl;
  simpl in *.
- discriminate.
- apply (proj1 (distinct_cons k0 (keys rest))) in Hd. destruct Hd as [Hn Hd].
  destruct (merge_step_obj a fs k0 v0) as [fs1 H1].
  pose proof (merge_step_thrown a fs k0 v0) as Ht.
  destruct (String.eqb_spec k0 k) as [->|Hne].
  + injection Hl as ->.
    pose proof (merge_step_value a fs k sv) as Hv.
    destruct (merge_step (VObj a fs) k sv) as [t1 [e|]]; simpl in *; subst t1;
      [discriminate|].
    split.
    * rewrite <- Hv.
      replace d' with (fst (merge_props rest (VObj a fs1)))
        by now rewrite Hm.
      now apply merge_props_frame.
    * intros Hnest Hdef. now rewrite Hnest, Hdef in Ht.
  + pose proof (merge_step_frame a fs k0 v0 k (not_eq_sym Hne)) as Hf.
    destruct (merge_step (VObj a fs) k0 v0) as [t1 [e|]]; simpl in *; subst t1;
      [discriminate|].
    rewrite <- Hf. now apply IH.
Qed.

(** *** Running a method step by step *)

Lemma bind_returned {A B} (c : M A) (k : A -> M B) m a m1 :
  c m = (inl a, m1) -> bind c k m = k a m1.
Proof. unfold bind. now intros ->. Qed.

Lemma bind_thrown {A B} (c : M A) (k : A -> M B) m e m1 :
  c m = (inr e, m1) -> bind c k m = (inr e, m1).
Proof. unfold bind. now intros ->. Qed.

Lemma machine_eta (m : Machine) :
  mkMachine (this m) (next_addr m) (trace m) (world m) = m.
Proof. now destruct m. Qed.

Lemma new_events_app (m m' : Machine) es :
  trace m' = trace m ++ es -> new_events m m' = es.
Proof.
  unfold new_events. intros ->.
  rewrite skipn_app, skipn_all, Nat.sub_diag. reflexivity.
Qed.

Lemma Map_get_set_same k n nets : Map_get k (Map_set k n nets) = Some n.
Proof.
  induction nets as [|[k' n'] nets IH]; simpl.
  - now rewrite String.eqb_refl.
  - destruct (String.eqb_spec k' k) as [->|Hne]; simpl.
    + now rewrite String.eqb_refl.
    + destruct (String.eqb_spec k' k); [contradiction | exact IH].
Qed.

Ltac run :=
  unfold getNetwork, disconnect, _createQueryHandler, getCurrentIdentity,
    bind, read, receiver, extern, alloc, prop, lift, update, when,
    try_catch, ret, throw in *; simpl in *.

(** Case analysis on the answer to the next external call. *)
Ltac answer :=
  match goal with
  | |- context [respond ?c ?w] =>
      let v := fresh "v" in
      let e := fresh "e" in
      let w' := fresh "w" in
      let E := fresh "Hcall" in
      destruct (respond c w) as [[v|e] w'] eqn:E
  end.

(** Every way [getNetwork] returns leaves the instance it returned in the
    cache. *)
Lemma getNetwork_cached name (m m' : Machine) n :
  getNetwork respond name m = (inl n, m') ->
  Map_get name (networks (this m')) = Some n.
Proof.
  run. destruct (Map_get name (networks (this m))) as [n0|] eqn:Hget.
  - intros H. injection H as <- <-. exact Hget.
  - destruct (client (this m)) as [| | | | |ca cfs];
      try discriminate;
      (answer; [|discriminate]); simpl;
      (destruct (strict_eq _ VNull); [answer; [|discriminate] |]); simpl;
      (destruct (getProp (options (this m)) "discovery") as [disc|e];
       [|discriminate]);
      simpl; (answer; [|discriminate]); simpl;
      intros H; injection H as <- <-; simpl; apply Map_get_set_same.
Qed.


(** *** What a method leaves alone

    [steps R c]: every run of [c], returning or throwing, takes a
    machine to an [R]-related one.  For a preorder [R] this follows the
    structure of [c]. *)

Section Steps.

Variable R : Machine -> Machine -> Prop.
Context {R_preorder : PreOrder R}.

Lemma steps_ret {A} (a : A) : steps R (ret a).
Proof. intros m. simpl. reflexivity. Qed.

Lemma steps_throw {A} e : steps R (@throw World A e).
Proof. intros m. simpl. reflexivity. Qed.

Lemma steps_lift {A} (r : result A) : steps R (lift r).
Proof. intros m. simpl. reflexivity. Qed.

Lemma steps_read {A} (f : Gateway -> A) : steps R (read f).
Proof. intros m. simpl. reflexivity. Qed.

Lemma steps_receiver v : steps R (receiver v).
Proof. intros m. destruct v; simpl; reflexivity. Qed.

Lemma steps_prop v k : steps R (prop v k).
Proof. apply steps_lift. Qed.

Lemma steps_bind {A B} (c : M A) (k : A -> M B) :
  steps R c -> (forall a, steps R (k a)) -> steps R (bind c k).
Proof.
  intros Hc Hk m. unfold bind. specialize (Hc m).
  destruct (c m) as [[a|e] m1]; simpl in *; [|exact Hc].
  transitivity m1; [exact Hc | apply Hk].
Qed.

Lemma steps_try_catch {A} (c : M A) (h : exn -> M A) :
  steps R c -> (forall e, steps R (h e)) -> steps R (try_catch c h).
Proof.
  intros Hc Hh m. unfold try_catch. specialize (Hc m).
  destruct (c m) as [[a|e] m1]; simpl in *; [exact Hc|].
  transitivity m1; [exact Hc | apply Hh].
Qed.

Lemma steps_when b (c : M unit) : steps R c -> steps R (when b c).
Proof. intros Hc. destruct b; [exact Hc | apply steps_ret]. Qed.

Lemma steps_update f :
  (forall m : Machine,
      R m (mkMachine (f (this m)) (next_addr m) (trace m) (world m))) ->
  steps R (update f).
Proof. intros H m. apply H. Qed.

Lemma steps_extern c :
  (forall (m : Machine) r w,
      R m (mkMachine (this m) (next_addr m) (trace m ++ [(c, r)]) w)) ->
  steps R (extern respond c).
Proof.
  intros H m. unfold extern.
  destruct (respond c (world m)) as [r w]. apply H.
Qed.

Lemma steps_alloc :
  (forall m : Machine,
      R m (mkMachine (this m) (S (next_addr m)) (trace m) (world m))) ->
  steps R alloc.
Proof. intros H m. apply H. Qed.

End Steps.

#[local] Instance keeps_preorder {B} (f : Gateway -> B) : PreOrder (keeps f).
Proof.
  split.
  - intros m. reflexivity.
  - intros a b c Hab Hbc. unfold keeps in *. congruence.
Qed.

#[local] Instance emits_preorder P : PreOrder (emits P).
Proof.
  split.
  - intros m. exists []. split; [now rewrite app_nil_r | constructor].
  - intros a b c [es1 [H1 F1]] [es2 [H2 F2]]. exists (es1 ++ es2). split.
    + rewrite H2, H1. now rewrite app_assoc.
    + apply Forall_app. now split.
Qed.

Lemma emits_one P (m : Machine) g a e w :
  P e -> emits P m (mkMachine g a (trace m ++ [e]) w).
Proof. intros H. exists [e]. split; [reflexivity | now constructor]. Qed.

Lemma emits_none P (m : Machine) g a w :
  emits P m (mkMachine g a (trace m) w).
Proof. exists []. split; [simpl; now rewrite app_nil_r | constructor]. Qed.

(** Follow the structure of a method; [side] closes what the updates,
    the calls and the allocations leave. *)
Ltac follow side :=
  repeat first
    [ apply steps_ret; exact _
    | apply steps_throw; exact _
    | apply steps_prop; exact _
    | apply steps_lift; exact _
    | apply steps_read; exact _
    | apply steps_receiver; exact _
    | apply steps_when; [exact _|]
    | apply steps_bind; [exact _| |intro]
    | apply steps_try_catch; [exact _| |intro]
    | apply steps_update; intro; side
    | apply steps_extern; intros; side
    | apply steps_alloc; intro; side
    | match goal with
      | |- steps _ (if ?b then _ else _) => destruct b
      | |- steps _ (match ?x with _ => _ end) => destruct x
      | |- steps _ (let '(_, _) := ?x in _) => destruct x
      end ].

Ltac kept := unfold keeps; simpl; reflexivity.

(** [connect] leaves the options alone once it has merged them. *)
Lemma load_client_keeps_options config :
  steps (keeps options) (load_client respond config).
Proof. unfold load_client. follow kept. Qed.

Lemma setup_identity_keeps_options s :
  steps (keeps options) (setup_identity respond s).
Proof. unfold setup_identity. follow kept. Qed.

Lemma setup_clientTlsIdentity_keeps_options s :
  steps (keeps options) (setup_clientTlsIdentity respond s).
Proof. unfold setup_clientTlsIdentity. follow kept. Qed.

Lemma setup_tlsInfo_keeps_options s :
  steps (keeps options) (setup_tlsInfo respond s).
Proof. unfold setup_tlsInfo. follow kept. Qed.

Lemma load_queryHandler_keeps_options :
  steps (keeps options) (load_queryHandler respond).
Proof. unfold load_queryHandler. follow kept. Qed.

Lemma establish_keeps_options config s :
  steps (keeps options) (establish config s).
Proof.
  unfold establish.
  apply steps_bind; [exact _ | apply load_client_keeps_options | intro].
  apply steps_bind; [exact _ | apply setup_identity_keeps_options | intro].
  apply steps_bind;
    [exact _ | apply setup_clientTlsIdentity_keeps_options | intro].
  apply steps_bind; [exact _ | apply setup_tlsInfo_keeps_options | intro].
  apply load_queryHandler_keeps_options.
Qed.

Lemma no_wallet_omits s (m : Machine) :
  no_wallet s m = (inl (omits_wallet s), m).
Proof.
  unfold no_wallet, omits_wallet, get, bind, prop, lift, ret.
  destruct s; simpl; try reflexivity.
  - now destruct b.
  - now destruct (n =? 0)%Z.
  - now destruct (s =? "")%string.
  - now destruct (lookup "wallet" fields).
Qed.

(** [connect] is its wallet check, then the merge, then the rest. *)
Lemma connect_unfold config s (m : Machine) :
  connect respond config s m
  = if omits_wallet s
    then (inr (Error "A wallet must be assigned to a Gateway instance"), m)
    else bind (prepare_options s) (fun _ => establish config s) m.
Proof.
  unfold connect.
  rewrite (bind_returned _ _ _ _ _ (no_wallet_omits s m)).
  now destruct (omits_wallet s).
Qed.

(** C3, as amended. A call of [connect] without options, or with options
    that carry no wallet, throws the error "A wallet must be assigned to
    a Gateway instance" at once: no call has been made and the Gateway is
    as it was.  (Options without an identity are not refused.) *)
Theorem connect_without_wallet config suppliedOptions (m : Machine) :
  omits_wallet suppliedOptions = true ->
  connect respond config suppliedOptions m
  = (inr (Error "A wallet must be assigned to a Gateway instance"), m).
Proof.
  intros Homits. rewrite connect_unfold. now rewrite Homits.
Qed.

(** C10. An unknown channel name is no error of [getNetwork]: when the
    Gateway is connected, the name is not in its cache and the client's
    [getChannel(name, false)] answers [null], the Gateway asks the
    client for a new channel of that name, builds a Network at a fresh
    address on the channel it gets, initializes it with the discovery
    options, caches it under the name and returns it.  From there on
    [getNetwork] throws only what [newChannel] or [_initialize] throw. *)
Theorem getNetwork_unknown_channel name (m : Machine) c w1 :
  Map_get name (networks (this m)) = None ->
  client (this m) = c ->
  instanceofObject c = true ->
  instanceofObject (options (this m)) = true ->
  respond (Client_getChannel c name false) (world m) = (inl VNull, w1) ->
  let discovery := get (options (this m)) "discovery" in
  let built ch := mkNetwork (next_addr m) ch in
  (forall ch w2 v w3,
      respond (Client_newChannel c name) w1 = (inl ch, w2) ->
      respond (Network_initialize (built ch) discovery) w2 = (inl v, w3) ->
      getNetwork respond name m
      = (inl (built ch),
         mkMachine
           (set_networks (Map_set name (built ch) (networks (this m)))
              (this m))
           (S (next_addr m))
           (trace m ++
              [(Client_getChannel c name false, inl VNull);
               (Client_newChannel c name, inl ch);
               (Network_initialize (built ch) discovery, inl v)])
           w3)) /\
  (forall e,
      fst (getNetwork respond name m) = inr e ->
      (exists w2, respond (Client_newChannel c name) w1 = (inr e, w2)) \/
      (exists ch w2 w3,
          respond (Client_newChannel c name) w1 = (inl ch, w2) /\
          respond (Network_initialize (built ch) discovery) w2
          = (inr e, w3))).
Proof.
  intros Hmiss Hc Hobj Hopts Hget discovery built.
  subst discovery built.
  destruct c as [| | | | |ca cfs]; try discriminate.
  pose proof (getProp_obj _ "discovery" Hopts) as Hd.
  split.
  - intros ch w2 v w3 Hnew Hinit. run.
    rewrite Hmiss, Hc. simpl. rewrite Hget. simpl. rewrite Hnew. simpl.
    rewrite Hd. simpl. rewrite Hinit. simpl.
    rewrite <- !app_assoc. reflexivity.
  - intros e. run. rewrite Hmiss, Hc. simpl. rewrite Hget. simpl.
    destruct (respond (Client_newChannel (VObj ca cfs) name) w1)
      as [[ch|e1] w2] eqn:Hnew; simpl.
    + rewrite Hd. simpl. answer; simpl; [discriminate|].
      intros H; injection H as <-; right; eauto.
    + intros H; injection H as <-. left; eauto.
Qed.

Lemma omits_wallet_obj s :
  omits_wallet s = false -> instanceofObject s = true.
Proof.
  unfold omits_wallet, get. destruct s; simpl; try reflexivity;
    rewrite ?orb_true_r; discriminate.
Qed.

Lemma prepare_options_run s (m : Machine) :
  instanceofObject s = true ->
  instanceofObject (options (this m)) = true ->
  let merge := _mergeOptions (prepared (options (this m)) s) s in
  prepare_options s m
  = (match snd merge with None => inl tt | Some e => inr e end,
     mkMachine (set_options (fst merge) (this m))
       (next_addr m) (trace m) (world m)).
Proof.
  intros Hs Ho. unfold prepare_options, other_queryHandler, prepared,
    drops_queryHandlerOptions, merge_into_options.
  unfold bind, prop, lift, read, when, update, ret, throw. simpl.
  rewrite (getProp_obj s "queryHandler" Hs).
  destruct (truthy (get s "queryHandler")); simpl.
  - rewrite (getProp_obj _ "queryHandler" Ho).
    destruct (strict_eq _ _); simpl;
      destruct (_mergeOptions _ s) as [o' [e|]]; reflexivity.
  - destruct (_mergeOptions _ s) as [o' [e|]]; reflexivity.
Qed.

Lemma connect_run config s (m : Machine) :
  omits_wallet s = false ->
  connect respond config s m
  = bind (prepare_options s) (fun _ => establish config s) m.
Proof. intros H. rewrite connect_unfold. now rewrite H. Qed.

(** The options after [connect] are the merge of the supplied ones into
    the prepared ones, however [connect] ends. *)
Lemma connect_options config s (m : Machine) :
  omits_wallet s = false ->
  instanceofObject (options (this m)) = true ->
  options (this (snd (connect respond config s m)))
  = fst (_mergeOptions (prepared (options (this m)) s) s).
Proof.
  intros Hw Ho. rewrite connect_run by exact Hw.
  pose proof (prepare_options_run s m (omits_wallet_obj s Hw) Ho) as Hp.
  cbv zeta in Hp. unfold bind. rewrite Hp.
  destruct (snd (_mergeOptions _ s)); [reflexivity|].
  rewrite establish_keeps_options. reflexivity.
Qed.

Lemma wf_properties v :
  wf v = true ->
  distinct (keys (properties v)) = true /\
  forall k x, lookup k (properties v) = Some x -> wf x = true.
Proof.
  destruct v; simpl; try (intros _; split; [reflexivity | discriminate]).
  rewrite andb_true_iff. intros [Hd Hall]. split; [exact Hd|].
  clear Hd. induction fields as [|[k0 v0] fs IH]; simpl in *; [discriminate|].
  apply andb_true_iff in Hall. destruct Hall as [H0 Hall].
  intros k x. destruct (k0 =? k)%string.
  - intros H; injection H as <-. exact H0.
  - now apply IH.
Qed.

(** The specification of one merge into an object, when it returns. *)
Lemma mergeOptions_returned d s :
  instanceofObject d = true ->
  instanceofObject s = true ->
  wf s = true ->
  snd (_mergeOptions d s) = None ->
  forall prop,
    match lookup prop (properties s) with
    | None => get (fst (_mergeOptions d s)) prop = get d prop
    | Some supplied =>
        get (fst (_mergeOptions d s)) prop
        = merged_value (get d prop) prop supplied /\
        (nested_options prop supplied = true ->
         is_undefined (get d prop) = false ->
         snd (_mergeOptions (get d prop) supplied) = None)
    end.
Proof.
  intros Hd Hs Hwf Hret prop.
  destruct d as [| | | | |a fs]; try discriminate.
  destruct s as [| | | | |b props]; try discriminate.
  apply wf_properties in Hwf. destruct Hwf as [Hdist _].
  rewrite mergeOptions_props in *. cbn [properties] in *.
  destruct (lookup prop props) as [supplied|] eqn:Hl.
  - apply (merge_props_returned props a fs _ prop supplied Hdist); [|exact Hl].
    destruct (merge_props props (VObj a fs)) as [d' t]. simpl in *.
    now subst t.
  - apply merge_props_frame. now apply lookup_None_keys.
Qed.

Lemma constructed_options m :
  constructed m ->
  exists o enabled, options (this m) = default_options o enabled.
Proof.
  intros [a [w H]]. unfold constructor in H. run.
  destruct (respond _ w) as [[enabled|e] w']; [|discriminate].
  injection H as <-. simpl. exists a, enabled. reflexivity.
Qed.

(** A merge into an object without nested options only stores. *)
Lemma merge_props_flat props a fs :
  distinct (keys props) = true ->
  (forall k, In k (keys props) -> endsWith k "Options" = true ->
             get (VObj a fs) k = VUndef) ->
  snd (merge_props props (VObj a fs)) = None.
Proof.
  revert fs. induction props as [|[k sv] rest IH]; intros fs Hd Hflat;
    simpl; [reflexivity|].
  apply (proj1 (distinct_cons k (keys rest))) in Hd. destruct Hd as [Hn Hd].
  pose proof (merge_step_thrown a fs k sv) as Ht.
  destruct (merge_step_obj a fs k sv) as [fs1 H1].
  assert (snd (merge_step (VObj a fs) k sv) = None) as Hnone.
  { rewrite Ht. unfold nested_options.
    destruct (instanceofObject sv); simpl; [|reflexivity].
    destruct (endsWith k "Options") eqn:E; [|reflexivity].
    rewrite (Hflat k) by (simpl; auto). reflexivity. }
  clear Ht.
  pose proof (fun k' (Hne : k' <> k) => merge_step_frame a fs k sv k' Hne)
    as Hf.
  destruct (merge_step (VObj a fs) k sv) as [t1 t]; simpl in *; subst t1 t.
  apply IH; [exact Hd|]. intros k' Hin He.
  rewrite Hf by (intros ->; contradiction). apply Hflat; auto.
Qed.

(** A merge into an object whose nested options have no nested options
    of their own returns. *)
Lemma merge_props_shallow props a fs :
  distinct (keys props) = true ->
  (forall k sv, lookup k props = Some sv -> wf sv = true) ->
  (forall k, In k (keys props) -> endsWith k "Options" = true ->
             get (VObj a fs) k = VUndef \/
             (instanceofObject (get (VObj a fs) k) = true /\
              flat (get (VObj a fs) k))) ->
  snd (merge_props props (VObj a fs)) = None.
Proof.
  revert fs. induction props as [|[k sv] rest IH]; intros fs Hd Hwf Hsh;
    simpl; [reflexivity|].
  apply (proj1 (distinct_cons k (keys rest))) in Hd. destruct Hd as [Hn Hd].
  pose proof (merge_step_thrown a fs k sv) as Ht.
  destruct (merge_step_obj a fs k sv) as [fs1 H1].
  assert (snd (merge_step (VObj a fs) k sv) = None) as Hnone.
  { rewrite Ht. unfold nested_options.
    destruct sv as [| | | | |b sprops]; cbn [instanceofObject andb];
      try reflexivity.
    destruct (endsWith k "Options") eqn:E; [|reflexivity].
    destruct (Hsh k) as [Hu|[Hobj Hflat]]; [simpl; auto | exact E | |].
    - now rewrite Hu.
    - destruct (get (VObj a fs) k) as [| | | | |c gs]; try discriminate.
      cbn [is_undefined]. rewrite mergeOptions_props.
      assert (wf (VObj b sprops) = true) as Hw.
      { apply (Hwf k). simpl. now rewrite String.eqb_refl. }
      apply wf_properties in Hw. destruct Hw as [Hdk _].
      apply merge_props_flat; [exact Hdk|]. intros k' _ He. now apply Hflat. }
  clear Ht.
  pose proof (fun k' (Hne : k' <> k) => merge_step_frame a fs k sv k' Hne)
    as Hf.
  destruct (merge_step (VObj a fs) k sv) as [t1 t]; simpl in *; subst t1 t.
  apply IH; [exact Hd| |].
  - intros k' sv' Hl. apply (Hwf k').
    destruct (String.eqb_spec k k') as [->|Hne]; [|exact Hl].
    exfalso. apply Hn. apply lookup_None_keys_not. congruence.
  - intros k' Hin He.
    rewrite Hf by (intros ->; contradiction). apply Hsh; auto.
Qed.

(** Decide which property of a literal object the name [k] is. *)
Ltac which_property k :=
  cbn [lookup];
  repeat match goal with
    | |- context [(?k0 =? k)%string] =>
        destruct (String.eqb_spec k0 k); [subst k|]; cbn [lookup]
    end.

Lemma flat_empty a : flat (VObj a []).
Proof. intros k _. reflexivity. Qed.

Lemma flat_eventHandlerOptions a timeout strategy :
  flat (VObj a [("commitTimeout", timeout); ("strategy", strategy)]).
Proof.
  intros k He. rewrite get_obj. which_property k;
    try (vm_compute in He; discriminate). reflexivity.
Qed.

Lemma default_options_dropped o enabled :
  deleteProp (default_options o enabled) "queryHandlerOptions"
  = VObj o
      [("queryHandler", VStr "./impl/query/defaultqueryhandler");
       ("eventHandlerOptions",
         VObj (S (S o)) [("commitTimeout", VNum 300);
                         ("strategy", MSPID_SCOPE_ALLFORTX)]);
       ("discovery", VObj (S (S (S o))) [("enabled", enabled)])].
Proof. reflexivity. Qed.

Lemma default_options_shallow o enabled s k :
  endsWith k "Options" = true ->
  let d := prepared (default_options o enabled) s in
  get d k = VUndef \/ (instanceofObject (get d k) = true /\ flat (get d k)).
Proof.
  intros He d. subst d. unfold prepared.
  destruct (drops_queryHandlerOptions _ s);
    [rewrite default_options_dropped | unfold default_options];
    rewrite get_obj; which_property k;
    try (vm_compute in He; discriminate);
    try (left; reflexivity);
    right; split; try reflexivity;
    first [apply flat_empty | apply flat_eventHandlerOptions].
Qed.

(** Into the options of a new Gateway every merge returns. *)
Lemma default_options_merge o enabled s :
  instanceofObject s = true ->
  wf s = true ->
  snd (_mergeOptions (prepared (default_options o enabled) s) s) = None.
Proof.
  intros Hs Hwf. destruct s as [| | | | |b props]; try discriminate.
  rewrite mergeOptions_props.
  apply wf_properties in Hwf. destruct Hwf as [Hd Hall]. simpl in Hd, Hall.
  assert (exists fs, prepared (default_options o enabled) (VObj b props)
                     = VObj o fs) as [fs Hfs].
  { unfold prepared.
    destruct (drops_queryHandlerOptions _ _);
      [rewrite default_options_dropped | unfold default_options]; eauto. }
  pose proof (fun k => default_options_shallow o enabled (VObj b props) k)
    as Hsh.
  cbv zeta in Hsh. rewrite Hfs in *.
  apply merge_props_shallow; [exact Hd | exact Hall |].
  intros k _ He. now apply Hsh.
Qed.

(** C4. [connect] merges the supplied options into the Gateway's options
    by a recursive structural merge.  The Gateway's options after
    [connect] are the result of [_mergeOptions] on the options it had
    (less the queryHandlerOptions when another query handler is
    supplied) and the supplied ones.  Whenever a merge into an object
    returns, at any depth: a property that is not supplied keeps its
    value; a supplied property that is not a nested options object (an
    object under a name that ends in 'Options') holds the supplied value;
    a supplied nested options object is stored as it is where the
    default has nothing, and is otherwise merged into the default's
    nested object by the same function.  Into the options of a new
    Gateway the merge always returns. *)
Theorem connect_merges_options config s (m : Machine) :
  omits_wallet s = false ->
  wf s = true ->
  instanceofObject (options (this m)) = true ->
  let before := prepared (options (this m)) s in
  let after := options (this (snd (connect respond config s m))) in
  after = fst (_mergeOptions before s) /\
  (forall d supplied,
      instanceofObject d = true ->
      instanceofObject supplied = true ->
      wf supplied = true ->
      snd (_mergeOptions d supplied) = None ->
      forall prop,
        let d' := fst (_mergeOptions d supplied) in
        match lookup prop (properties supplied) with
        | None => get d' prop = get d prop
        | Some x =>
            if nested_options prop x then
              if is_undefined (get d prop) then get d' prop = x
              else
                get d' prop = fst (_mergeOptions (get d prop) x) /\
                snd (_mergeOptions (get d prop) x) = None
            else get d' prop = x
        end) /\
  (constructed m -> snd (_mergeOptions before s) = None).
Proof.
  intros Hw Hwf Ho before after. subst before after.
  split; [now apply connect_options|]. split.
  - intros d supplied Hd Hs Hwfs Hret prop d'. subst d'.
    pose proof (mergeOptions_returned d supplied Hd Hs Hwfs Hret prop) as H.
    destruct (lookup prop (properties supplied)) as [x|]; [|exact H].
    destruct H as [Hv Hn]. unfold merged_value in Hv.
    destruct (nested_options prop x); [|exact Hv].
    destruct (is_undefined (get d prop)); [exact Hv|].
    split; [exact Hv | now apply Hn].
  - intros Hc. destruct (constructed_options m Hc) as [o [enabled ->]].
    apply default_options_merge; [now apply omits_wallet_obj | exact Hwf].
Qed.

Lemma get_deleteProp_other v k k' :
  k <> k' -> get (deleteProp v k') k = get v k.
Proof.
  intros Hne. destruct v; try reflexivity. simpl deleteProp.
  now rewrite !get_obj, lookup_remove_other.
Qed.

Lemma get_deleteProp_same v k : get (deleteProp v k) k = VUndef.
Proof.
  destruct v; try reflexivity. simpl deleteProp.
  now rewrite get_obj, lookup_remove_same.
Qed.

Lemma prepared_get current s k :
  k <> "queryHandlerOptions" ->
  get (prepared current s) k = get current k.
Proof.
  intros Hne. unfold prepared.
  destruct (drops_queryHandlerOptions current s); [|reflexivity].
  now apply get_deleteProp_other.
Qed.

Lemma prepared_obj current s :
  instanceofObject (prepared current s) = instanceofObject current.
Proof.
  unfold prepared. destruct (drops_queryHandlerOptions current s);
    [|reflexivity]. now destruct current.
Qed.

(** A merge keeps the two defaults when the supplied options do not
    override them, whether it returns or throws. *)
Lemma mergeOptions_keeps_defaults d s k :
  wf s = true ->
  overrides_defaults s = false ->
  k = "commitTimeout" \/ k = "strategy" ->
  instanceofObject (get d "eventHandlerOptions") = true ->
  get (get (fst (_mergeOptions d s)) "eventHandlerOptions") k
  = get (get d "eventHandlerOptions") k.
Proof.
  intros Hwf Hov Hk Hobj.
  destruct d as [| | | | |a fs]; try discriminate.
  destruct s as [| | | | |b props]; try reflexivity.
  rewrite mergeOptions_props.
  apply wf_properties in Hwf. destruct Hwf as [Hd _].
  unfold overrides_defaults in Hov. cbn [properties] in *.
  destruct (lookup "eventHandlerOptions" props) as [x|] eqn:Hl.
  - destruct (merge_props_reached props a fs _ x Hd Hl) as [H|H];
      rewrite H; [reflexivity|].
    destruct x as [| | | | |c sub]; try discriminate.
    unfold merged_value, nested_options. cbn [instanceofObject andb].
    replace (endsWith "eventHandlerOptions" "Options") with true
      by reflexivity.
    destruct (get (VObj a fs) "eventHandlerOptions") as [| | | | |e dfs];
      try discriminate.
    cbn [is_undefined]. rewrite mergeOptions_props.
    apply merge_props_frame. intros Hin.
    assert (existsb (fun k0 => (k0 =? "commitTimeout")%string
                               || (k0 =? "strategy")%string) (keys sub)
            = true) as E; [|congruence].
    apply existsb_exists. exists k. split; [exact Hin|].
    destruct Hk as [-> | ->]; reflexivity.
  - rewrite merge_props_frame; [reflexivity|]. now apply lookup_None_keys.
Qed.

(** C5. A newly constructed Gateway has a commit timeout of 300 and the
    strategy MSPID_SCOPE_ALLFORTX as its default event handler options,
    and a [connect] whose options do not override them leaves
    [getOptions] reporting them, whether that [connect] returns or
    throws. *)
Theorem default_eventHandlerOptions :
  (forall m, constructed m -> reports_defaults m) /\
  (forall config s (m : Machine),
      wf s = true ->
      overrides_defaults s = false ->
      reports_defaults m ->
      reports_defaults (snd (connect respond config s m))).
Proof.
  split.
  - intros m Hc. destruct (constructed_options m Hc) as [o [enabled Ho]].
    exists (options (this m)). split; [reflexivity|].
    rewrite Ho. split; reflexivity.
  - intros config s m Hwf Hov [o [Hget [Ht Hs]]].
    unfold getOptions, read in Hget. injection Hget as <-.
    destruct (omits_wallet s) eqn:Hw.
    + rewrite connect_unfold, Hw. simpl.
      exists (options (this m)). auto.
    + assert (instanceofObject (get (options (this m)) "eventHandlerOptions")
              = true) as Hobj.
      { destruct (get (options (this m)) "eventHandlerOptions");
          try discriminate. reflexivity. }
      assert (instanceofObject (options (this m)) = true) as Hoo.
      { destruct (options (this m)); try discriminate. reflexivity. }
      exists (options (this (snd (connect respond config s m)))).
      split; [reflexivity|].
      rewrite connect_options by assumption.
      assert ("eventHandlerOptions" <> "queryHandlerOptions") as Hne
          by discriminate.
      rewrite !mergeOptions_keeps_defaults; auto;
        rewrite ?prepared_get by exact Hne; auto.
Qed.

(** C9. When the options of [connect] name a query handler that is not
    the Gateway's current one, the current queryHandlerOptions are
    deleted before the merge: the options after [connect] are the merge
    into the options without them, so the queryHandlerOptions are then
    the supplied ones (or none), never the earlier ones.  When the
    supplied query handler is the current one, or none is supplied, the
    options are merged as they are: queryHandlerOptions that are not
    supplied stay, supplied ones are merged into them. *)
Theorem connect_queryHandlerOptions config s (m : Machine) :
  omits_wallet s = false ->
  wf s = true ->
  instanceofObject (options (this m)) = true ->
  let supplied := get s "queryHandler" in
  let current := get (options (this m)) "queryHandler" in
  let before := options (this m) in
  let after := options (this (snd (connect respond config s m))) in
  (truthy supplied = true -> strict_eq current supplied = false ->
   after = fst (_mergeOptions (deleteProp before "queryHandlerOptions") s) /\
   (get after "queryHandlerOptions" = VUndef \/
    get after "queryHandlerOptions" = get s "queryHandlerOptions") /\
   (snd (_mergeOptions (deleteProp before "queryHandlerOptions") s) = None ->
    get after "queryHandlerOptions" = get s "queryHandlerOptions")) /\
  (truthy supplied = false \/ strict_eq current supplied = true ->
   after = fst (_mergeOptions before s) /\
   match lookup "queryHandlerOptions" (properties s) with
   | None =>
       get after "queryHandlerOptions" = get before "queryHandlerOptions"
   | Some x =>
       snd (_mergeOptions before s) = None ->
       get after "queryHandlerOptions"
       = merged_value (get before "queryHandlerOptions")
           "queryHandlerOptions" x
   end).
Proof.
  intros Hw Hwf Ho supplied current before after.
  subst supplied current before after.
  pose proof (connect_options config s m Hw Ho) as Hafter.
  pose proof (omits_wallet_obj s Hw) as Hs.
  destruct (options (this m)) as [| | | | |a fs] eqn:Eo; try discriminate.
  destruct s as [| | | | |b props] eqn:Es; try discriminate.
  apply wf_properties in Hwf. destruct Hwf as [Hd _]. cbn [properties] in *.
  unfold prepared, drops_queryHandlerOptions in Hafter.
  split.
  - intros Ht Hne. rewrite Ht, Hne in Hafter. simpl andb in Hafter.
    cbv iota in Hafter. rewrite Hafter. split; [reflexivity|].
    cbn [deleteProp]. rewrite !mergeOptions_props.
    assert (get (VObj a (remove "queryHandlerOptions" fs))
              "queryHandlerOptions" = VUndef) as Hdel
        by (rewrite get_obj, lookup_remove_same; reflexivity).
    destruct (lookup "queryHandlerOptions" props) as [x|] eqn:Hl.
    + assert (get (VObj b props) "queryHandlerOptions" = x) as Hx
          by (rewrite get_obj, Hl; reflexivity).
      assert (merged_value VUndef "queryHandlerOptions" x = x) as Hmv.
      { unfold merged_value. now destruct (nested_options _ x). }
      split.
      * destruct (merge_props_reached props a
                    (remove "queryHandlerOptions" fs)
                    "queryHandlerOptions" x Hd Hl) as [H|H];
          rewrite H, Hdel; [now left | right]. now rewrite Hmv, Hx.
      * intros Hret.
        destruct (merge_props props _) as [d' t] eqn:Em. simpl in Hret.
        subst t.
        destruct (merge_props_returned props a
                    (remove "queryHandlerOptions" fs) d'
                    "queryHandlerOptions" x Hd Em Hl) as [H _].
        simpl fst. now rewrite H, Hdel, Hmv, Hx.
    + assert (get (VObj b props) "queryHandlerOptions" = VUndef) as Hx
          by (rewrite get_obj, Hl; reflexivity).
      rewrite merge_props_frame by (now apply lookup_None_keys).
      rewrite Hdel, Hx. auto.
  - intros Hkeep.
    assert (truthy (get (VObj b props) "queryHandler") &&
            negb (strict_eq (get (VObj a fs) "queryHandler")
                    (get (VObj b props) "queryHandler")) = false) as E.
    { destruct Hkeep as [-> | ->]; [reflexivity | apply andb_false_r]. }
    rewrite E in Hafter. rewrite Hafter. split; [reflexivity|].
    rewrite !mergeOptions_props.
    destruct (lookup "queryHandlerOptions" props) as [x|] eqn:Hl.
    + intros Hret.
      destruct (merge_props props _) as [d' t] eqn:Em. simpl in Hret.
      subst t.
      destruct (merge_props_returned props a fs d'
                  "queryHandlerOptions" x Hd Em Hl) as [H _].
      exact H.
    + apply merge_props_frame. now apply lookup_None_keys.
Qed.

(** *** Traces of a run in several steps *)

Lemma bind_cases {A B} (c : M A) (k : A -> M B) m :
  (exists e, c m = (inr e, snd (c m)) /\ bind c k m = (inr e, snd (c m))) \/
  (exists a, c m = (inl a, snd (c m)) /\ bind c k m = k a (snd (c m))).
Proof.
  unfold bind. destruct (c m) as [[a|e] m1]; simpl; eauto.
Qed.

Lemma emits_new_events P (m m' : Machine) :
  emits P m m' -> Forall P (new_events m m').
Proof. intros [es [H F]]. now rewrite (new_events_app m m' es H). Qed.

Lemma emits_trace P (m m' : Machine) :
  emits P m m' -> trace m' = trace m ++ new_events m m'.
Proof. intros [es [H F]]. now rewrite (new_events_app m m' es H). Qed.

Lemma new_events_split P Q (m m1 m2 : Machine) :
  emits P m m1 -> emits Q m1 m2 ->
  new_events m m2 = new_events m m1 ++ new_events m1 m2.
Proof.
  intros H1 H2. apply emits_trace in H1, H2.
  apply new_events_app. rewrite H2, H1 at 1. now rewrite app_assoc.
Qed.

Lemma emits_weaken (P Q : event -> Prop) (m m' : Machine) :
  (forall e, P e -> Q e) -> emits P m m' -> emits Q m m'.
Proof.
  intros H [es [Ht F]]. exists es. split; [exact Ht|].
  eapply Forall_impl; eauto.
Qed.

Lemma quiet_In f (m m' : Machine) c r :
  quiet f m m' -> In (c, r) (new_events m m') -> f c = false.
Proof.
  intros H Hin. apply emits_new_events in H.
  rewrite Forall_forall in H. exact (H (c, r) Hin).
Qed.

Ltac silent := first [apply emits_none | apply emits_one; reflexivity].

(** What each step of [connect] calls. *)
Lemma prepare_options_quiet f s : steps (quiet f) (prepare_options s).
Proof.
  unfold prepare_options, other_queryHandler, merge_into_options, quiet.
  follow silent.
Qed.

Lemma load_client_calls config :
  steps (emits (fun e => exists ccp, fst e = Client_loadFromConfig ccp))
    (load_client respond config).
Proof.
  unfold load_client.
  follow ltac:(first [apply emits_none | apply emits_one; simpl; eauto]).
Qed.

Lemma setup_identity_calls s :
  steps (emits (fun e => is_setUserContext (fst e) = true))
    (setup_identity respond s).
Proof. unfold setup_identity. follow silent. Qed.

Lemma setup_clientTlsIdentity_calls s :
  steps (emits (fun e => is_export (fst e) = true \/ is_setTls (fst e) = true))
    (setup_clientTlsIdentity respond s).
Proof.
  unfold setup_clientTlsIdentity.
  follow ltac:(first [apply emits_none | apply emits_one; simpl; auto]).
Qed.

Lemma setup_tlsInfo_calls s :
  steps (emits (fun e => is_setTls (fst e) = true))
    (setup_tlsInfo respond s).
Proof. unfold setup_tlsInfo. follow silent. Qed.

Lemma load_queryHandler_calls :
  steps (emits (fun e => is_require (fst e) = true))
    (load_queryHandler respond).
Proof. unfold load_queryHandler. follow silent. Qed.

Lemma after_steps R {HR : PreOrder R} r (c : M unit) :
  steps R c -> steps R (after r c).
Proof.
  intros H m. unfold after. destruct r; [apply H | simpl; reflexivity].
Qed.

Lemma after_returned r (c : M unit) m a :
  fst (after r c m) = inl a -> r = inl tt /\ fst (c m) = inl a.
Proof.
  unfold after. destruct r as [[]|e]; [auto | discriminate].
Qed.

Lemma after_thrown e (c : M unit) m : after (inr e) c m = (inr e, m).
Proof. reflexivity. Qed.

Lemma connect_stages config s (m : Machine) :
  omits_wallet s = false ->
  connect respond config s m = stage6 config s m.
Proof.
  intros Hw. rewrite connect_run by exact Hw.
  unfold stage6, stage5, stage4, stage3, stage2, stage1, establish,
    after, bind.
  destruct (prepare_options s m) as [[[]|e1] m1]; [|reflexivity]. simpl.
  destruct (load_client respond config m1) as [[[]|e2] m2]; [|reflexivity].
  simpl.
  destruct (setup_identity respond s m2) as [[[]|e3] m3]; [|reflexivity].
  simpl.
  destruct (setup_clientTlsIdentity respond s m3) as [[[]|e4] m4];
    [|reflexivity].
  simpl.
  destruct (setup_tlsInfo respond s m4) as [[[]|e5] m5]; reflexivity.
Qed.

(** The calls of [connect], stage by stage. *)
Lemma connect_events config s (m : Machine) :
  omits_wallet s = false ->
  new_events m (snd (connect respond config s m))
  = new_events (snd (stage1 s m)) (snd (stage2 config s m))
    ++ new_events (snd (stage2 config s m)) (snd (stage3 config s m))
    ++ new_events (snd (stage3 config s m)) (snd (stage4 config s m))
    ++ new_events (snd (stage4 config s m)) (snd (stage5 config s m))
    ++ new_events (snd (stage5 config s m)) (snd (stage6 config s m)).
Proof.
  intros Hw. rewrite connect_stages by exact Hw.
  pose proof (prepare_options_quiet (fun _ => true) s m) as H1.
  pose proof (after_steps _ (fst (stage1 s m)) _
                (load_client_calls config) (snd (stage1 s m))) as H2.
  pose proof (after_steps _ (fst (stage2 config s m)) _
                (setup_identity_calls s) (snd (stage2 config s m))) as H3.
  pose proof (after_steps _ (fst (stage3 config s m)) _
                (setup_clientTlsIdentity_calls s)
                (snd (stage3 config s m))) as H4.
  pose proof (after_steps _ (fst (stage4 config s m)) _
                (setup_tlsInfo_calls s) (snd (stage4 config s m))) as H5.
  pose proof (after_steps _ (fst (stage5 config s m)) _
                load_queryHandler_calls (snd (stage5 config s m))) as H6.
  fold (stage1 s m) in H1. fold (stage2 config s m) in H2.
  fold (stage3 config s m) in H3. fold (stage4 config s m) in H4.
  fold (stage5 config s m) in H5. fold (stage6 config s m) in H6.
  assert (forall P (a b : Machine), emits P a b -> emits (fun _ => True) a b)
    as W by (intros P a b; apply emits_weaken; auto).
  apply W in H2, H3, H4, H5, H6.
  pose proof (transitivity H5 H6) as H56.
  pose proof (transitivity H4 H56) as H46.
  pose proof (transitivity H3 H46) as H36.
  pose proof (transitivity H2 H36) as H26.
  rewrite (new_events_split _ _ _ _ _ H1 H26).
  rewrite (new_events_split _ _ _ _ _ H2 H36).
  rewrite (new_events_split _ _ _ _ _ H3 H46).
  rewrite (new_events_split _ _ _ _ _ H4 H56).
  rewrite (new_events_split _ _ _ _ _ H5 H6).
  apply emits_new_events in H1.
  destruct (new_events m (snd (stage1 s m))) as [|ev rest];
    [reflexivity|].
  inversion H1; discriminate.
Qed.


Lemma new_events_one (m : Machine) g a e w :
  new_events m (mkMachine g a (trace m ++ [e]) w) = [e].
Proof. now apply new_events_app. Qed.

Lemma new_events_same (m : Machine) : new_events m m = [].
Proof. apply new_events_app. now rewrite app_nil_r. Qed.

(** *** The identity *)

Lemma receiver_truthy v (m : Machine) :
  truthy v = true -> receiver v m = (inl tt, m).
Proof. destruct v; try discriminate; reflexivity. Qed.

Lemma receiver_obj v (m : Machine) :
  instanceofObject v = true -> receiver v m = (inl tt, m).
Proof. destruct v; try discriminate; reflexivity. Qed.

Lemma setup_identity_run s (m : Machine) :
  instanceofObject s = true ->
  truthy (get s "wallet") = true ->
  truthy (get s "identity") = true ->
  let c :=
    Wallet_setUserContext (get s "wallet") (client (this m))
      (get s "identity") in
  setup_identity respond s m
  = match respond c (world m) with
    | (inl user, w) =>
        (inl tt,
         mkMachine (set_currentIdentity user (this m)) (next_addr m)
           (trace m ++ [(c, inl user)]) w)
    | (inr e, w) =>
        (inr e,
         mkMachine (this m) (next_addr m) (trace m ++ [(c, inr e)]) w)
    end.
Proof.
  intros Hs Hw Hi c. subst c. unfold setup_identity.
  unfold bind, prop, lift, when. rewrite !(getProp_obj s _ Hs). rewrite Hi.
  rewrite (receiver_truthy _ m Hw).
  unfold read, extern, update, ret, throw. simpl.
  destruct (respond _ (world m)) as [[user|e] w]; reflexivity.
Qed.

Lemma setup_identity_skipped s (m : Machine) :
  instanceofObject s = true ->
  truthy (get s "identity") = false ->
  setup_identity respond s m = (inl tt, m).
Proof.
  intros Hs Hi. unfold setup_identity.
  unfold bind, prop, lift, when. rewrite (getProp_obj s _ Hs). now rewrite Hi.
Qed.

Lemma omits_wallet_truthy s :
  omits_wallet s = false -> truthy (get s "wallet") = true.
Proof.
  unfold omits_wallet. intros H. apply orb_false_elim in H.
  destruct H as [_ H]. now apply negb_false_iff in H.
Qed.

Lemma prepare_options_keeps_currentIdentity s :
  steps (keeps currentIdentity) (prepare_options s).
Proof.
  unfold prepare_options, other_queryHandler, merge_into_options.
  follow kept.
Qed.

Lemma load_client_keeps_currentIdentity config :
  steps (keeps currentIdentity) (load_client respond config).
Proof. unfold load_client. follow kept. Qed.

Lemma setup_clientTlsIdentity_keeps {B} (f : Gateway -> B) s :
  steps (keeps f) (setup_clientTlsIdentity respond s).
Proof. unfold setup_clientTlsIdentity. follow kept. Qed.

Lemma setup_tlsInfo_keeps {B} (f : Gateway -> B) s :
  steps (keeps f) (setup_tlsInfo respond s).
Proof. unfold setup_tlsInfo. follow kept. Qed.

Lemma load_queryHandler_keeps_currentIdentity :
  steps (keeps currentIdentity) (load_queryHandler respond).
Proof. unfold load_queryHandler. follow kept. Qed.

Lemma load_queryHandler_keeps_client :
  steps (keeps client) (load_queryHandler respond).
Proof. unfold load_queryHandler. follow kept. Qed.

Lemma setup_identity_keeps_client s :
  steps (keeps client) (setup_identity respond s).
Proof. unfold setup_identity. follow kept. Qed.

(** From the third stage on the client stays, from the fourth on the
    identity too. *)
Lemma stages_keep_client config s (m : Machine) :
  client (this (snd (stage3 config s m)))
  = client (this (snd (stage6 config s m))) /\
  client (this (snd (stage4 config s m)))
  = client (this (snd (stage6 config s m))).
Proof.
  pose proof (after_steps _ (fst (stage3 config s m)) _
                (setup_clientTlsIdentity_keeps client s)
                (snd (stage3 config s m))) as H4.
  pose proof (after_steps _ (fst (stage4 config s m)) _
                (setup_tlsInfo_keeps client s)
                (snd (stage4 config s m))) as H5.
  pose proof (after_steps _ (fst (stage5 config s m)) _
                load_queryHandler_keeps_client
                (snd (stage5 config s m))) as H6.
  fold (stage4 config s m) in H4.
  fold (stage5 config s m) in H5. fold (stage6 config s m) in H6.
  unfold keeps in *. split; congruence.
Qed.

Lemma stage3_keeps_client config s (m : Machine) :
  client (this (snd (stage3 config s m)))
  = client (this (snd (stage2 config s m))).
Proof.
  exact (after_steps _ (fst (stage2 config s m)) _
           (setup_identity_keeps_client s) (snd (stage2 config s m))).
Qed.

Lemma stages_keep_currentIdentity config s (m : Machine) :
  currentIdentity (this (snd (stage2 config s m)))
  = currentIdentity (this m) /\
  currentIdentity (this (snd (stage6 config s m)))
  = currentIdentity (this (snd (stage3 config s m))).
Proof.
  pose proof (prepare_options_keeps_currentIdentity s m) as H1.
  pose proof (after_steps _ (fst (stage1 s m)) _
                (load_client_keeps_currentIdentity config)
                (snd (stage1 s m))) as H2.
  pose proof (after_steps _ (fst (stage3 config s m)) _
                (setup_clientTlsIdentity_keeps currentIdentity s)
                (snd (stage3 config s m))) as H4.
  pose proof (after_steps _ (fst (stage4 config s m)) _
                (setup_tlsInfo_keeps currentIdentity s)
                (snd (stage4 config s m))) as H5.
  pose proof (after_steps _ (fst (stage5 config s m)) _
                load_queryHandler_keeps_currentIdentity
                (snd (stage5 config s m))) as H6.
  fold (stage1 s m) in H1. fold (stage2 config s m) in H2.
  fold (stage4 config s m) in H4.
  fold (stage5 config s m) in H5. fold (stage6 config s m) in H6.
  unfold keeps in *. split; congruence.
Qed.

(** The kinds of calls of each stage. *)
Lemma stage_calls config s (m : Machine) c r :
  (In (c, r) (new_events (snd (stage1 s m)) (snd (stage2 config s m))) ->
   exists ccp, c = Client_loadFromConfig ccp) /\
  (In (c, r) (new_events (snd (stage2 config s m)) (snd (stage3 config s m)))
   -> is_setUserContext c = true) /\
  (In (c, r) (new_events (snd (stage3 config s m)) (snd (stage4 config s m)))
   -> is_export c = true \/ is_setTls c = true) /\
  (In (c, r) (new_events (snd (stage4 config s m)) (snd (stage5 config s m)))
   -> is_setTls c = true) /\
  (In (c, r) (new_events (snd (stage5 config s m)) (snd (stage6 config s m)))
   -> is_require c = true).
Proof.
  pose proof (after_steps _ (fst (stage1 s m)) _
                (load_client_calls config) (snd (stage1 s m))) as H2.
  pose proof (after_steps _ (fst (stage2 config s m)) _
                (setup_identity_calls s) (snd (stage2 config s m))) as H3.
  pose proof (after_steps _ (fst (stage3 config s m)) _
                (setup_clientTlsIdentity_calls s)
                (snd (stage3 config s m))) as H4.
  pose proof (after_steps _ (fst (stage4 config s m)) _
                (setup_tlsInfo_calls s) (snd (stage4 config s m))) as H5.
  pose proof (after_steps _ (fst (stage5 config s m)) _
                load_queryHandler_calls (snd (stage5 config s m))) as H6.
  fold (stage2 config s m) in H2.
  fold (stage3 config s m) in H3. fold (stage4 config s m) in H4.
  fold (stage5 config s m) in H5. fold (stage6 config s m) in H6.
  apply emits_new_events in H2, H3, H4, H5, H6.
  rewrite Forall_forall in H2, H3, H4, H5, H6.
  repeat split; intros Hin;
    [ apply (H2 _ Hin) | apply (H3 _ Hin) | apply (H4 _ Hin)
    | apply (H5 _ Hin) | apply (H6 _ Hin) ].
Qed.

Lemma getNetwork_keeps_currentIdentity name :
  steps (keeps currentIdentity) (getNetwork respond name).
Proof. unfold getNetwork. follow kept. Qed.

Lemma dispose_all_keeps {B} (f : Gateway -> B) ns :
  steps (keeps f) (dispose_all respond ns).
Proof.
  induction ns as [|n ns IH]; simpl.
  - apply steps_ret; exact _.
  - apply steps_bind; [exact _ | | intro; exact IH].
    apply steps_extern. intros. kept.
Qed.

Lemma disconnect_keeps_currentIdentity :
  steps (keeps currentIdentity) (disconnect respond).
Proof.
  unfold disconnect. apply steps_bind; [exact _ | | intro].
  - apply steps_read; exact _.
  - apply steps_bind; [exact _ | apply dispose_all_keeps | intro].
    apply steps_update. intro. kept.
Qed.

Lemma createQueryHandler_keeps_currentIdentity channel peerMap :
  steps (keeps currentIdentity) (_createQueryHandler respond channel peerMap).
Proof. unfold _createQueryHandler, getCurrentIdentity. follow kept. Qed.

(** The third stage, when an identity is supplied: nothing after a
    throw, else one call to the wallet. *)
Lemma identity_stage config s (m : Machine) :
  omits_wallet s = false ->
  truthy (get s "identity") = true ->
  let m2 := snd (stage2 config s m) in
  let m3 := snd (stage3 config s m) in
  let c :=
    Wallet_setUserContext (get s "wallet") (client (this m2))
      (get s "identity") in
  (new_events m2 m3 = [] /\ exists e, fst (stage3 config s m) = inr e) \/
  (exists e, new_events m2 m3 = [(c, inr e)] /\
             fst (stage3 config s m) = inr e) \/
  (exists user, new_events m2 m3 = [(c, inl user)] /\
                fst (stage3 config s m) = inl tt /\
                currentIdentity (this m3) = user).
Proof.
  intros Hw Hi m2 m3 c. subst m2 m3 c.
  pose proof (setup_identity_run s (snd (stage2 config s m))
                (omits_wallet_obj s Hw) (omits_wallet_truthy s Hw) Hi)
    as Hrun.
  cbv zeta in Hrun.
  assert (stage3 config s m
          = after (fst (stage2 config s m)) (setup_identity respond s)
              (snd (stage2 config s m))) as E3 by reflexivity.
  rewrite !E3. clear E3. unfold after.
  destruct (fst (stage2 config s m)) as [[]|e2].
  - rewrite Hrun.
    destruct (respond _ (world (snd (stage2 config s m)))) as [[u|e] w'];
      simpl fst; simpl snd.
    + right. right. exists u.
      rewrite new_events_one. auto.
    + right. left. exists e.
      rewrite new_events_one. auto.
  - left. simpl. rewrite new_events_same. eauto.
Qed.

(** C7. The Gateway holds one identity at a time, in [currentIdentity].
    A [connect] with an identity label asks the wallet once to set the
    user context for that label on the Gateway's client; when the
    wallet answers with a user, [getCurrentIdentity] returns that user,
    and a [connect] that returns has got such an answer.  It replaces
    whatever identity was there before.  [getNetwork], [disconnect],
    [_createQueryHandler] and a [connect] without an identity leave the
    identity as it is. *)
Theorem current_identity :
  (forall config s (m : Machine),
      omits_wallet s = false ->
      truthy (get s "identity") = true ->
      let r := fst (connect respond config s m) in
      let m' := snd (connect respond config s m) in
      (forall w c label user,
          In (Wallet_setUserContext w c label, inl user) (new_events m m') ->
          w = get s "wallet" /\ c = client (this m') /\
          label = get s "identity" /\
          getCurrentIdentity m' = (inl user, m')) /\
      (r = inl tt ->
       exists user,
         In (Wallet_setUserContext (get s "wallet") (client (this m'))
               (get s "identity"), inl user) (new_events m m'))) /\
  (forall (m : Machine),
      (forall name,
          currentIdentity (this (snd (getNetwork respond name m)))
          = currentIdentity (this m)) /\
      currentIdentity (this (snd (disconnect respond m)))
      = currentIdentity (this m) /\
      (forall channel peerMap,
          currentIdentity
            (this (snd (_createQueryHandler respond channel peerMap m)))
          = currentIdentity (this m)) /\
      (forall config s,
          truthy (get s "identity") = false ->
          currentIdentity (this (snd (connect respond config s m)))
          = currentIdentity (this m))).
Proof.
  split.
  - intros config s m Hw Hi r m'. subst r m'.
    pose proof (connect_events config s m Hw) as Hev.
    rewrite connect_stages in * by exact Hw.
    assert (client (this (snd (stage6 config s m)))
            = client (this (snd (stage2 config s m)))) as Hc6.
    { destruct (stages_keep_client config s m) as [H _].
      rewrite <- H. apply stage3_keeps_client. }
    destruct (stages_keep_currentIdentity config s m) as [_ Hi6].
    pose proof (identity_stage config s m Hw Hi) as Hst. cbv zeta in Hst.
    split.
    + intros w c label user Hin. rewrite Hev in Hin.
      rewrite !in_app_iff in Hin.
      pose proof (stage_calls config s m (Wallet_setUserContext w c label)
                    (inl user)) as [K2 [_ [K4 [K5 K6]]]].
      destruct Hin as [Hin|[Hin|[Hin|[Hin|Hin]]]].
      * destruct (K2 Hin) as [ccp Hc]. discriminate.
      * unfold getCurrentIdentity, read. rewrite Hc6, Hi6.
        destruct Hst as [[Hn _]|[[e [Hn _]]|[u [Hn [_ Hu]]]]];
          rewrite Hn in Hin; simpl in Hin.
        -- destruct Hin.
        -- destruct Hin as [Hin|[]]. discriminate.
        -- destruct Hin as [Hin|[]]. inversion Hin. subst. auto.
      * destruct (K4 Hin); discriminate.
      * specialize (K5 Hin). discriminate.
      * specialize (K6 Hin). discriminate.
    + intros Hr. rewrite Hev, Hc6.
      unfold stage6 in Hr. apply after_returned in Hr. destruct Hr as [H5 _].
      unfold stage5 in H5. apply after_returned in H5. destruct H5 as [H4 _].
      unfold stage4 in H4. apply after_returned in H4. destruct H4 as [H3 _].
      destruct Hst as [[_ [e He]]|[[e [_ He]]|[u [Hn _]]]]; try congruence.
      exists u. rewrite !in_app_iff. right. left. rewrite Hn. now left.
  - intros m. split; [|split; [|split]].
    + intros name. apply getNetwork_keeps_currentIdentity.
    + apply disconnect_keeps_currentIdentity.
    + intros channel peerMap. apply createQueryHandler_keeps_currentIdentity.
    + intros config s Hi. destruct (omits_wallet s) eqn:Hw.
      * now rewrite connect_unfold, Hw.
      * rewrite connect_stages by exact Hw.
        destruct (stages_keep_currentIdentity config s m) as [H2 H6].
        rewrite H6, <- H2. unfold stage3, after.
        destruct (fst (stage2 config s m)); [|reflexivity].
        now rewrite setup_identity_skipped by (auto using omits_wallet_obj).
Qed.

(** *** The query handler *)

Lemma mergeOptions_obj d s :
  instanceofObject d = true ->
  instanceofObject (fst (_mergeOptions d s)) = true.
Proof.
  intros Hd. destruct s as [| | | | |b props]; try exact Hd.
  rewrite mergeOptions_props. destruct d as [| | | | |a fs]; try discriminate.
  destruct (merge_props_obj props a fs) as [fs' ->]. reflexivity.
Qed.

(** The options at every stage of a [connect] are the merged ones. *)
Lemma stage_options config s (m : Machine) :
  omits_wallet s = false ->
  instanceofObject (options (this m)) = true ->
  let merged := fst (_mergeOptions (prepared (options (this m)) s) s) in
  instanceofObject merged = true /\
  options (this (snd (stage5 config s m))) = merged /\
  options (this (snd (stage6 config s m))) = merged.
Proof.
  intros Hw Ho merged. subst merged.
  pose proof (prepare_options_run s m (omits_wallet_obj s Hw) Ho) as H1.
  cbv zeta in H1.
  pose proof (after_steps _ (fst (stage1 s m)) _
                (load_client_keeps_options config) (snd (stage1 s m)))
    as H2.
  pose proof (after_steps _ (fst (stage2 config s m)) _
                (setup_identity_keeps_options s) (snd (stage2 config s m)))
    as H3.
  pose proof (after_steps _ (fst (stage3 config s m)) _
                (setup_clientTlsIdentity_keeps options s)
                (snd (stage3 config s m))) as H4.
  pose proof (after_steps _ (fst (stage4 config s m)) _
                (setup_tlsInfo_keeps options s)
                (snd (stage4 config s m))) as H5.
  pose proof (after_steps _ (fst (stage5 config s m)) _
                load_queryHandler_keeps_options
                (snd (stage5 config s m))) as H6.
  fold (stage2 config s m) in H2.
  fold (stage3 config s m) in H3. fold (stage4 config s m) in H4.
  fold (stage5 config s m) in H5. fold (stage6 config s m) in H6.
  unfold keeps in *.
  assert (options (this (snd (stage1 s m)))
          = fst (_mergeOptions (prepared (options (this m)) s) s)) as E1.
  { unfold stage1. rewrite H1. reflexivity. }
  split; [|split]; try congruence.
  apply mergeOptions_obj. now rewrite prepared_obj.
Qed.

Lemma load_queryHandler_run (m : Machine) :
  instanceofObject (options (this m)) = true ->
  let id := get (options (this m)) "queryHandler" in
  load_queryHandler respond m
  = if truthy id then
      match respond (Node_require id) (world m) with
      | (inl cls, w) =>
          (inl tt,
           mkMachine (set_queryHandlerClass cls (this m)) (next_addr m)
             (trace m ++ [(Node_require id, inl cls)]) w)
      | (inr error, w) =>
          (inr (Error (unable_to_load id error)),
           mkMachine (this m) (next_addr m)
             (trace m ++ [(Node_require id, inr error)]) w)
      end
    else (inl tt, m).
Proof.
  intros Ho id. subst id. unfold load_queryHandler.
  unfold bind, prop, lift, when, read, try_catch, extern, update, throw, ret.
  simpl. rewrite !(getProp_obj _ "queryHandler" Ho).
  destruct (truthy _); [|reflexivity].
  simpl. rewrite !(getProp_obj _ "queryHandler" Ho).
  destruct (respond _ (world m)) as [[cls|error] w]; simpl;
    rewrite ?(getProp_obj _ "queryHandler" Ho); reflexivity.
Qed.

(** The last stage: skipped, or nothing to load, or one [require]. *)
Lemma load_stage config s (m : Machine) :
  omits_wallet s = false ->
  instanceofObject (options (this m)) = true ->
  let m5 := snd (stage5 config s m) in
  let m6 := snd (stage6 config s m) in
  let id := get (options (this m6)) "queryHandler" in
  (new_events m5 m6 = [] /\
   ((exists e, fst (stage6 config s m) = inr e) \/
    (truthy id = false /\ fst (stage6 config s m) = inl tt))) \/
  (exists error,
      new_events m5 m6 = [(Node_require id, inr error)] /\
      fst (stage6 config s m) = inr (Error (unable_to_load id error))) \/
  (exists cls,
      new_events m5 m6 = [(Node_require id, inl cls)] /\
      fst (stage6 config s m) = inl tt /\
      queryHandlerClass (this m6) = cls).
Proof.
  intros Hw Ho m5 m6 id. subst m5 m6 id.
  destruct (stage_options config s m Hw Ho) as [Hobj [E5 E6]].
  rewrite E6. rewrite <- E5 in *.
  pose proof (load_queryHandler_run (snd (stage5 config s m)) Hobj) as Hrun.
  cbv zeta in Hrun.
  assert (stage6 config s m
          = after (fst (stage5 config s m)) (load_queryHandler respond)
              (snd (stage5 config s m))) as E by reflexivity.
  rewrite !E. clear E. unfold after.
  destruct (fst (stage5 config s m)) as [[]|e5].
  - rewrite Hrun.
    destruct (truthy (get (options (this (snd (stage5 config s m))))
                        "queryHandler")).
    + destruct (respond _ (world (snd (stage5 config s m))))
        as [[cls|error] w]; simpl fst; simpl snd.
      * right. right. exists cls. rewrite new_events_one. auto.
      * right. left. exists error. rewrite new_events_one. auto.
    + left. simpl. rewrite new_events_same. auto.
  - left. simpl. rewrite new_events_same. eauto.
Qed.

Lemma createQueryHandler_run channel peerMap (m : Machine)
      cls user identity w1 mspId w2 queryHandler w3 v w4 :
  queryHandlerClass (this m) = cls ->
  truthy cls = true ->
  currentIdentity (this m) = user ->
  instanceofObject user = true ->
  instanceofObject (options (this m)) = true ->
  respond (User_getIdentity user) (world m) = (inl identity, w1) ->
  instanceofObject identity = true ->
  respond (Identity_getMSPId identity) w1 = (inl mspId, w2) ->
  let queryHandlerOptions := get (options (this m)) "queryHandlerOptions" in
  respond (QueryHandler_new cls channel mspId peerMap queryHandlerOptions) w2
  = (inl queryHandler, w3) ->
  instanceofObject queryHandler = true ->
  respond (QueryHandler_initialize queryHandler) w3 = (inl v, w4) ->
  _createQueryHandler respond channel peerMap m
  = (inl queryHandler,
     mkMachine (this m) (next_addr m)
       (trace m ++
          [(User_getIdentity user, inl identity);
           (Identity_getMSPId identity, inl mspId);
           (QueryHandler_new cls channel mspId peerMap queryHandlerOptions,
             inl queryHandler);
           (QueryHandler_initialize queryHandler, inl v)])
       w4).
Proof.
  intros Hcls Ht Hu Huo Ho H1 Hio H2 qho H3 Hqo H4. subst qho.
  unfold _createQueryHandler, getCurrentIdentity.
  unfold bind at 1. unfold read at 1. rewrite Hcls, Ht.
  unfold bind at 1. unfold read at 1. rewrite Hu.
  unfold bind at 1. rewrite (receiver_obj _ _ Huo).
  unfold bind at 1. unfold extern at 1. rewrite H1.
  unfold bind at 1. rewrite (receiver_obj _ _ Hio).
  unfold bind at 1. unfold extern at 1. simpl world. rewrite H2.
  unfold bind at 1. unfold read at 1.
  unfold bind at 1. unfold prop, lift. simpl this.
  rewrite (getProp_obj _ "queryHandlerOptions" Ho).
  unfold bind at 1. unfold extern at 1. simpl world. rewrite H3.
  unfold bind at 1. rewrite (receiver_obj _ _ Hqo).
  unfold bind at 1. unfold extern at 1. simpl world. rewrite H4.
  unfold ret. simpl. rewrite <- !app_assoc. reflexivity.
Qed.

(** C6. When a query handler is configured (the merged options have a
    [queryHandler]), a [connect] that returns has loaded it with
    [require] and keeps the loaded class.  A [require] that throws makes
    [connect] throw the error "unable to load provided query handler:
    <module>. Error <error>", which names the module.  With a loaded
    class and a current identity, [_createQueryHandler] constructs the
    query handler from that class with the channel, the MSP id of the
    identity, the peer map and the queryHandlerOptions, initializes it
    and returns it. *)
Theorem queryHandler_loading :
  (forall config s (m : Machine),
      omits_wallet s = false ->
      instanceofObject (options (this m)) = true ->
      let r := fst (connect respond config s m) in
      let m' := snd (connect respond config s m) in
      let id := get (options (this m')) "queryHandler" in
      (r = inl tt -> truthy id = true ->
       exists cls,
         In (Node_require id, inl cls) (new_events m m') /\
         queryHandlerClass (this m') = cls) /\
      (forall id' error,
          In (Node_require id', inr error) (new_events m m') ->
          id' = id /\ r = inr (Error (unable_to_load id error))) /\
      (forall id' cls,
          In (Node_require id', inl cls) (new_events m m') ->
          id' = id /\ r = inl tt /\ queryHandlerClass (this m') = cls)) /\
  (forall name error,
      unable_to_load (VStr name) error
      = ("unable to load provided query handler: " ++ name
         ++ ". Error " ++ exn_toString error)%string) /\
  (forall channel peerMap (m : Machine)
          cls user identity w1 mspId w2 queryHandler w3 v w4,
      queryHandlerClass (this m) = cls ->
      truthy cls = true ->
      currentIdentity (this m) = user ->
      instanceofObject user = true ->
      instanceofObject (options (this m)) = true ->
      respond (User_getIdentity user) (world m) = (inl identity, w1) ->
      instanceofObject identity = true ->
      respond (Identity_getMSPId identity) w1 = (inl mspId, w2) ->
      let queryHandlerOptions :=
        get (options (this m)) "queryHandlerOptions" in
      respond (QueryHandler_new cls channel mspId peerMap
                 queryHandlerOptions) w2
      = (inl queryHandler, w3) ->
      instanceofObject queryHandler = true ->
      respond (QueryHandler_initialize queryHandler) w3 = (inl v, w4) ->
      _createQueryHandler respond channel peerMap m
      = (inl queryHandler,
         mkMachine (this m) (next_addr m)
           (trace m ++
              [(User_getIdentity user, inl identity);
               (Identity_getMSPId identity, inl mspId);
               (QueryHandler_new cls channel mspId peerMap
                  queryHandlerOptions, inl queryHandler);
               (QueryHandler_initialize queryHandler, inl v)])
           w4)).
Proof.
  split; [|split].
  - intros config s m Hw Ho r m' id. subst r m' id.
    pose proof (connect_events config s m Hw) as Hev.
    rewrite connect_stages in * by exact Hw.
    pose proof (load_stage config s m Hw Ho) as Hst. cbv zeta in Hst.
    assert (forall id' ans,
               In (Node_require id', ans)
                 (new_events m (snd (stage6 config s m))) ->
               In (Node_require id', ans)
                 (new_events (snd (stage5 config s m))
                    (snd (stage6 config s m)))) as Hlast.
    { intros id' ans Hin. rewrite Hev in Hin. rewrite !in_app_iff in Hin.
      pose proof (stage_calls config s m (Node_require id') ans)
        as [K2 [K3 [K4 [K5 _]]]].
      destruct Hin as [Hin|[Hin|[Hin|[Hin|Hin]]]]; [| | | |exact Hin].
      - destruct (K2 Hin) as [ccp Hc]. discriminate.
      - specialize (K3 Hin). discriminate.
      - destruct (K4 Hin); discriminate.
      - specialize (K5 Hin). discriminate. }
    split; [|split].
    + intros Hr Ht.
      destruct Hst as [[_ [[e He]|[Hf _]]]|[[error [_ He]]|[cls [Hn [_ Hc]]]]];
        try congruence.
      exists cls. split; [|exact Hc].
      rewrite Hev, !in_app_iff, Hn. simpl. tauto.
    + intros id' error Hin. apply Hlast in Hin.
      destruct Hst as [[Hn _]|[[error' [Hn He]]|[cls [Hn _]]]];
        rewrite Hn in Hin; simpl in Hin.
      * destruct Hin.
      * destruct Hin as [Hin|[]]. inversion Hin. subst. auto.
      * destruct Hin as [Hin|[]]. discriminate.
    + intros id' cls Hin. apply Hlast in Hin.
      destruct Hst as [[Hn _]|[[error' [Hn He]]|[cls' [Hn [Hr Hc]]]]];
        rewrite Hn in Hin; simpl in Hin.
      * destruct Hin.
      * destruct Hin as [Hin|[]]. discriminate.
      * destruct Hin as [Hin|[]]. inversion Hin. subst. auto.
  - intros name error. reflexivity.
  - intros. now apply createQueryHandler_run with (w1 := w1) (w2 := w2)
                                                  (w3 := w3).
Qed.

(** *** The TLS credentials *)

Lemma new_events_two (m : Machine) g a e1 e2 w :
  new_events m (mkMachine g a ((trace m ++ [e1]) ++ [e2]) w) = [e1; e2].
Proof. apply new_events_app. simpl. now rewrite <- app_assoc. Qed.

Lemma setup_clientTlsIdentity_skipped s (m : Machine) :
  instanceofObject s = true ->
  truthy (get s "clientTlsIdentity") = false ->
  setup_clientTlsIdentity respond s m = (inl tt, m).
Proof.
  intros Hs Hi. unfold setup_clientTlsIdentity.
  unfold bind, prop, lift, when. rewrite (getProp_obj s _ Hs). now rewrite Hi.
Qed.

(** With a client TLS identity: the wallet exports it and its
    certificate and private key go to the client. *)
Lemma setup_clientTlsIdentity_cases s (m : Machine) :
  instanceofObject s = true ->
  truthy (get s "wallet") = true ->
  truthy (get s "clientTlsIdentity") = true ->
  let export :=
    Wallet_export (get s "wallet") (get s "clientTlsIdentity") in
  let r := fst (setup_clientTlsIdentity respond s m) in
  let m' := snd (setup_clientTlsIdentity respond s m) in
  (exists e, new_events m m' = [(export, inr e)] /\ r = inr e) \/
  (exists t e, new_events m m' = [(export, inl t)] /\ r = inr e) \/
  (exists t ans,
      new_events m m'
      = [(export, inl t);
         (Client_setTlsClientCertAndKey (client (this m))
            (get t "certificate") (get t "privateKey"), ans)] /\
      r = outcome ans).
Proof.
  intros Hs Hw Hi export r m'. subst export r m'.
  destruct (setup_clientTlsIdentity respond s m) as [r m'] eqn:E.
  simpl fst. simpl snd.
  unfold setup_clientTlsIdentity in E.
  unfold bind, prop, lift, when in E.
  rewrite !(getProp_obj s _ Hs) in E. rewrite Hi in E.
  rewrite (receiver_truthy _ m Hw) in E.
  unfold extern, read in E. simpl in E.
  destruct (respond _ (world m)) as [[t|e] w1].
  - simpl in E.
    destruct (getProp_cases t) as [Hg|[e Hg]];
      rewrite !Hg in E;
      (revert E; destruct (client (this m)) as [| | | | |ca cfs] eqn:Ec;
       intros E; simpl in E;
       try solve [injection E as <- <-; right; left; exists t;
                  rewrite new_events_one; eauto]);
      match type of E with
      | context [respond ?c ?w] =>
          destruct (respond c w) as [[v|e] w2]
      end; simpl in E; injection E as <- <-;
      right; right; eexists; eexists; rewrite new_events_two;
      (split; [reflexivity|]); reflexivity.
  - injection E as <- <-. left. exists e. rewrite new_events_one. auto.
Qed.

Lemma setup_tlsInfo_skipped s (m : Machine) :
  instanceofObject s = true ->
  truthy (get s "tlsInfo") && negb (truthy (get s "clientTlsIdentity"))
  = false ->
  setup_tlsInfo respond s m = (inl tt, m).
Proof.
  intros Hs Hi. unfold setup_tlsInfo.
  unfold bind, prop, lift, when, ret. rewrite !(getProp_obj s _ Hs).
  destruct (truthy (get s "tlsInfo")); simpl in *;
    rewrite ?(getProp_obj s _ Hs); [now rewrite Hi | reflexivity].
Qed.

(** With TLS info and no client TLS identity: its certificate and key
    go to the client. *)
Lemma setup_tlsInfo_cases s (m : Machine) :
  instanceofObject s = true ->
  truthy (get s "tlsInfo") = true ->
  truthy (get s "clientTlsIdentity") = false ->
  let r := fst (setup_tlsInfo respond s m) in
  let m' := snd (setup_tlsInfo respond s m) in
  (exists e, new_events m m' = [] /\ r = inr e) \/
  (exists ans,
      new_events m m'
      = [(Client_setTlsClientCertAndKey (client (this m))
            (get (get s "tlsInfo") "certificate")
            (get (get s "tlsInfo") "key"), ans)] /\
      r = outcome ans).
Proof.
  intros Hs Ht Hi r m'. subst r m'.
  destruct (setup_tlsInfo respond s m) as [r m'] eqn:E.
  simpl fst. simpl snd.
  unfold setup_tlsInfo in E.
  unfold bind, prop, lift, when, ret in E.
  rewrite !(getProp_obj s _ Hs) in E.
  rewrite Ht in E. rewrite ?(getProp_obj s _ Hs) in E. rewrite Hi in E.
  simpl negb in E. cbv iota in E. unfold read in E.
  assert (forall k, getProp (get s "tlsInfo") k
                    = inl (get (get s "tlsInfo") k)) as Hg.
  { intros k. now apply getProp_truthy. }
  simpl in E. rewrite !Hg in E.
  revert E; destruct (client (this m)) as [| | | | |ca cfs] eqn:Ec;
    intros E; simpl in E;
    try solve [injection E as <- <-; left; eexists;
               rewrite new_events_same; eauto];
    unfold extern in E; simpl in E;
    match type of E with
    | context [respond ?c ?w] => destruct (respond c w) as [[v|e] w2]
    end; simpl in E; injection E as <- <-;
    right; eexists; rewrite new_events_one; split; reflexivity.
Qed.

Lemma filter_none {A} (f : A -> bool) l :
  (forall x, In x l -> f x = false) -> filter f l = [].
Proof.
  induction l as [|x l IH]; intros H; simpl; [reflexivity|].
  rewrite (H x) by now left. apply IH. intros y Hy. apply H. now right.
Qed.

Lemma filter_every {A} (f : A -> bool) l :
  (forall x, In x l -> f x = true) -> filter f l = l.
Proof.
  induction l as [|x l IH]; intros H; simpl; [reflexivity|].
  rewrite (H x) by now left. f_equal. apply IH. intros y Hy. apply H.
  now right.
Qed.

(** The TLS calls of a [connect] are those of its fourth and fifth
    stage. *)
Lemma tls_events_stages config s (m : Machine) :
  omits_wallet s = false ->
  tls_events (new_events m (snd (connect respond config s m)))
  = new_events (snd (stage3 config s m)) (snd (stage4 config s m))
    ++ new_events (snd (stage4 config s m)) (snd (stage5 config s m)).
Proof.
  intros Hw. rewrite (connect_events config s m Hw).
  unfold tls_events. rewrite !filter_app.
  rewrite (filter_none _ (new_events (snd (stage1 s m)) _)).
  2:{ intros [c r] Hin.
      destruct (stage_calls config s m c r) as [K _].
      destruct (K Hin) as [ccp ->]. reflexivity. }
  rewrite (filter_none _ (new_events (snd (stage2 config s m)) _)).
  2:{ intros [c r] Hin.
      destruct (stage_calls config s m c r) as [_ [K _]].
      specialize (K Hin). now destruct c. }
  rewrite (filter_every _ (new_events (snd (stage3 config s m)) _)).
  2:{ intros [c r] Hin.
      destruct (stage_calls config s m c r) as [_ [_ [K _]]].
      simpl. destruct (K Hin) as [-> | ->]; [reflexivity | apply orb_true_r]. }
  rewrite (filter_every _ (new_events (snd (stage4 config s m)) _)).
  2:{ intros [c r] Hin.
      destruct (stage_calls config s m c r) as [_ [_ [_ [K _]]]].
      simpl. rewrite (K Hin). apply orb_true_r. }
  rewrite (filter_none _ (new_events (snd (stage5 config s m)) _)).
  2:{ intros [c r] Hin.
      destruct (stage_calls config s m c r) as [_ [_ [_ [_ K]]]].
      specialize (K Hin). now destruct c. }
  simpl. now rewrite app_nil_r.
Qed.

Lemma outcome_returned ans : outcome ans = inl tt -> exists v, ans = inl v.
Proof. destruct ans; [eauto | discriminate]. Qed.

(** C8. The precedence of the TLS credentials in [connect].  With a
    client TLS identity in the options, the only TLS calls of [connect]
    are the wallet's export of that identity and, with the exported
    certificate and private key, one [setTlsClientCertAndKey] on the
    Gateway's client; the TLS info of the options is never used.
    Without a client TLS identity, the only TLS call is one
    [setTlsClientCertAndKey] with the certificate and key of the TLS
    info, and none without TLS info.  A [connect] that returns has made
    these calls and they returned. *)
Theorem tls_precedence config s (m : Machine) :
  omits_wallet s = false ->
  let r := fst (connect respond config s m) in
  let m' := snd (connect respond config s m) in
  let tls := tls_events (new_events m m') in
  let export :=
    Wallet_export (get s "wallet") (get s "clientTlsIdentity") in
  let assign cert key :=
    Client_setTlsClientCertAndKey (client (this m')) cert key in
  (truthy (get s "clientTlsIdentity") = true ->
   (tls = [] \/
    (exists e, tls = [(export, inr e)]) \/
    (exists t, tls = [(export, inl t)]) \/
    (exists t ans,
        tls = [(export, inl t);
               (assign (get t "certificate") (get t "privateKey"), ans)])) /\
   (r = inl tt ->
    exists t v,
      tls = [(export, inl t);
             (assign (get t "certificate") (get t "privateKey"), inl v)])) /\
  (truthy (get s "clientTlsIdentity") = false ->
   let info := get s "tlsInfo" in
   (tls = [] \/
    (truthy info = true /\
     exists ans,
       tls = [(assign (get info "certificate") (get info "key"), ans)])) /\
   (r = inl tt -> truthy info = true ->
    exists v,
      tls = [(assign (get info "certificate") (get info "key"), inl v)]) /\
   (truthy info = false -> tls = [])).
Proof.
  intros Hw r m' tls export assign. subst r m' tls export assign.
  pose proof (omits_wallet_obj s Hw) as Hs.
  pose proof (omits_wallet_truthy s Hw) as Hwt.
  rewrite (tls_events_stages config s m Hw).
  rewrite connect_stages by exact Hw.
  destruct (stages_keep_client config s m) as [Hc3 Hc4].
  assert (fst (stage6 config s m) = inl tt ->
          fst (stage5 config s m) = inl tt /\
          fst (stage4 config s m) = inl tt) as Hret.
  { intros Hr. unfold stage6 in Hr. apply after_returned in Hr.
    destruct Hr as [H5 _]. split; [exact H5|].
    unfold stage5 in H5. now apply after_returned in H5. }
  assert (stage4 config s m
          = after (fst (stage3 config s m))
              (setup_clientTlsIdentity respond s)
              (snd (stage3 config s m))) as E4 by reflexivity.
  assert (stage5 config s m
          = after (fst (stage4 config s m)) (setup_tlsInfo respond s)
              (snd (stage4 config s m))) as E5 by reflexivity.
  split.
  - intros Hi. rewrite <- Hc3.
    assert (new_events (snd (stage4 config s m)) (snd (stage5 config s m))
            = []) as N5.
    { rewrite E5. unfold after. destruct (fst (stage4 config s m)).
      - rewrite setup_tlsInfo_skipped;
          [apply new_events_same | exact Hs |].
        rewrite Hi. apply andb_false_r.
      - apply new_events_same. }
    rewrite N5, app_nil_r.
    destruct (fst (stage3 config s m)) as [[]|e3] eqn:E3.
    + pose proof (setup_clientTlsIdentity_cases s (snd (stage3 config s m))
                    Hs Hwt Hi) as Hc.
      cbv zeta in Hc. rewrite E4, ?E3. simpl after.
      destruct Hc as [[e [Hn Hr]]|[[t [e [Hn Hr]]]|[t [ans [Hn Hr]]]]];
        rewrite Hn.
      * split; [eauto|]. intros H6. apply Hret in H6. destruct H6 as [_ H4].
        rewrite E4, ?E3 in H4. simpl after in H4. congruence.
      * split; [eauto 6|]. intros H6. apply Hret in H6.
        destruct H6 as [_ H4].
        rewrite E4, ?E3 in H4. simpl after in H4. congruence.
      * split; [eauto 8|]. intros H6. apply Hret in H6.
        destruct H6 as [_ H4].
        rewrite E4, ?E3 in H4. simpl after in H4. rewrite Hr in H4.
        apply outcome_returned in H4. destruct H4 as [v ->]. eauto.
    + rewrite E4, ?E3. simpl. rewrite new_events_same.
      split; [auto|]. intros H6. apply Hret in H6. destruct H6 as [_ H4].
      rewrite E4, ?E3 in H4. discriminate.
  - intros Hi info. subst info. rewrite <- Hc4.
    assert (new_events (snd (stage3 config s m)) (snd (stage4 config s m))
            = [] /\
            fst (stage4 config s m) = fst (stage3 config s m) /\
            snd (stage4 config s m) = snd (stage3 config s m)) as [N4 [R4 M4]].
    { rewrite E4. unfold after. destruct (fst (stage3 config s m)) as [[]|e3].
      - rewrite setup_clientTlsIdentity_skipped by assumption.
        simpl. now rewrite new_events_same.
      - simpl. now rewrite new_events_same. }
    rewrite N4. simpl app.
    destruct (truthy (get s "tlsInfo")) eqn:Ht.
    + destruct (fst (stage4 config s m)) as [[]|e4] eqn:E4'.
      * pose proof (setup_tlsInfo_cases s (snd (stage4 config s m))
                      Hs Ht Hi) as Hc.
        cbv zeta in Hc. rewrite E5, ?E4'. simpl after.
        destruct Hc as [[e [Hn Hr]]|[ans [Hn Hr]]]; rewrite Hn.
        -- split; [auto|]. split; [|discriminate].
           intros H6 _. apply Hret in H6. destruct H6 as [H5 _].
           rewrite E5, ?E4' in H5. simpl after in H5. congruence.
        -- split; [eauto|]. split; [|discriminate].
           intros H6 _. apply Hret in H6. destruct H6 as [H5 _].
           rewrite E5, ?E4' in H5. simpl after in H5. rewrite Hr in H5.
           apply outcome_returned in H5. destruct H5 as [v ->]. eauto.
      * rewrite E5, ?E4'. simpl. rewrite new_events_same.
        split; [auto|]. split; [|discriminate].
        intros H6 _. apply Hret in H6. destruct H6 as [_ H4]. discriminate.
    + assert (new_events (snd (stage4 config s m)) (snd (stage5 config s m))
              = []) as N5.
      { rewrite E5. unfold after. destruct (fst (stage4 config s m)).
        - rewrite setup_tlsInfo_skipped;
            [apply new_events_same | exact Hs |].
          now rewrite Ht.
        - apply new_events_same. }
      rewrite N5. split; [auto|]. split; [discriminate | reflexivity].
Qed.

(** *** The network cache *)

Lemma Map_set_absent k n nets :
  Map_get k nets = None -> Map_set k n nets = nets ++ [(k, n)].
Proof.
  induction nets as [|[k' n'] nets IH]; simpl; [reflexivity|].
  destruct (k' =? k)%string; [discriminate|]. intros H. now rewrite IH.
Qed.

Lemma Map_get_None k nets : Map_get k nets = None -> ~ In k (map fst nets).
Proof.
  induction nets as [|[k' n'] nets IH]; simpl; [tauto|].
  destruct (String.eqb_spec k' k); [discriminate|]. intros H [E|Hin];
    [contradiction | now apply IH].
Qed.

Lemma distinct_addrs_app l a :
  distinct_addrs l = true ->
  Forall (fun x => (x < a)%nat) l ->
  distinct_addrs (l ++ [a]) = true.
Proof.
  induction l as [|x l IH]; intros Hd Hlt; simpl; [reflexivity|].
  simpl in Hd. apply andb_true_iff in Hd. destruct Hd as [Hx Hd].
  inversion Hlt as [|? ? Hxa Hl]; subst.
  apply andb_true_iff. split; [|now apply IH].
  apply negb_true_iff in Hx. apply negb_true_iff.
  rewrite existsb_app. apply orb_false_iff. split; [exact Hx|].
  simpl. rewrite orb_false_r. apply Nat.eqb_neq. lia.
Qed.

Lemma distinct_app ks k :
  distinct ks = true -> ~ In k ks -> distinct (ks ++ [k]) = true.
Proof.
  induction ks as [|x ks IH]; intros Hd Hn; [reflexivity|].
  apply (proj1 (distinct_cons x ks)) in Hd. destruct Hd as [Hx Hd].
  change ((x :: ks) ++ [k]) with (x :: (ks ++ [k])).
  apply distinct_cons. split.
  - rewrite in_app_iff. simpl. intros [H|[H|[]]]; [contradiction|].
    apply Hn. now left.
  - apply IH; [exact Hd|]. intros H. apply Hn. now right.
Qed.

Lemma cache_ok_parts (m : Machine) :
  cache_ok m = true <->
  distinct_addrs (map net_addr (Map_values (networks (this m)))) = true /\
  Forall (fun n => (net_addr n < next_addr m)%nat)
    (Map_values (networks (this m))) /\
  distinct (map fst (networks (this m))) = true.
Proof.
  unfold cache_ok. rewrite !andb_true_iff, forallb_forall, Forall_forall.
  split.
  - intros [[H1 H2] H3]. repeat split; auto.
    intros n Hn. apply Nat.ltb_lt. auto.
  - intros [H1 [H2 H3]]. repeat split; auto.
    intros n Hn. apply Nat.ltb_lt. auto.
Qed.

(** [getNetwork] keeps the invariant. *)
Lemma getNetwork_cache_ok name (m : Machine) :
  cache_ok m = true -> cache_ok (snd (getNetwork respond name m)) = true.
Proof.
  intros Hok. apply cache_ok_parts in Hok. destruct Hok as [Hd [Hlt Hk]].
  assert (forall g a t w,
             networks g = networks (this m) ->
             (next_addr m <= a)%nat ->
             cache_ok (mkMachine g a t w) = true) as Hsame.
  { intros g a t w Hg Ha. apply cache_ok_parts. simpl. rewrite Hg.
    repeat split; auto. eapply Forall_impl; [|exact Hlt].
    simpl. intros; lia. }
  run. destruct (Map_get name (networks (this m))) as [n0|] eqn:Hget; simpl.
  - rewrite <- (machine_eta m). apply Hsame; auto.
  - destruct (client (this m)) as [| | | | |ca cfs]; simpl;
      try (rewrite <- (machine_eta m); apply Hsame; now auto);
      (answer; simpl; [|apply Hsame; now auto]);
      (destruct (strict_eq _ VNull); simpl;
       [answer; simpl; [|apply Hsame; now auto] |]);
      (destruct (getProp (options (this m)) "discovery") as [disc|e]; simpl;
       [|apply Hsame; now auto]);
      (answer; simpl; [|apply Hsame; now auto]);
      apply cache_ok_parts; simpl;
      rewrite (Map_set_absent _ _ _ Hget);
      unfold Map_values; rewrite !map_app; simpl;
      (repeat split;
       [ apply distinct_addrs_app; [exact Hd|];
         rewrite Forall_map; exact Hlt
       | apply Forall_app; split;
         [eapply Forall_impl; [|exact Hlt]; simpl; intros; lia
         | constructor; [simpl; lia | constructor]]
       | apply distinct_app; [exact Hk | now apply Map_get_None] ]).
Qed.

#[local] Instance cache_kept_preorder : PreOrder cache_kept.
Proof.
  split.
  - intros m. split; [reflexivity | lia].
  - intros a b c [H1 L1] [H2 L2]. split; [congruence | lia].
Qed.

Lemma cache_kept_ok (m m' : Machine) :
  cache_kept m m' -> cache_ok m = true -> cache_ok m' = true.
Proof.
  intros [Hn Hl] Hok. apply cache_ok_parts in Hok.
  destruct Hok as [Hd [Hlt Hk]]. apply cache_ok_parts. rewrite Hn.
  repeat split; auto. eapply Forall_impl; [|exact Hlt]. simpl. intros; lia.
Qed.

Ltac cached := unfold cache_kept; simpl; split; [reflexivity | lia].

Lemma connect_keeps_cache config s :
  steps cache_kept (connect respond config s).
Proof.
  unfold connect, no_wallet, prepare_options, other_queryHandler,
    merge_into_options, load_client, setup_identity,
    setup_clientTlsIdentity, setup_tlsInfo, load_queryHandler.
  follow cached.
Qed.

Lemma createQueryHandler_keeps_cache channel peerMap :
  steps cache_kept (_createQueryHandler respond channel peerMap).
Proof. unfold _createQueryHandler, getCurrentIdentity. follow cached. Qed.

Lemma dispose_all_keeps_cache ns :
  steps cache_kept (dispose_all respond ns).
Proof.
  induction ns as [|n ns IH]; simpl.
  - apply steps_ret; exact _.
  - apply steps_bind; [exact _ | | intro; exact IH].
    apply steps_extern. intros. cached.
Qed.

Lemma disconnect_cache_ok (m : Machine) :
  cache_ok m = true -> cache_ok (snd (disconnect respond m)) = true.
Proof.
  intros Hok. unfold disconnect, bind, read. simpl.
  pose proof (dispose_all_keeps_cache (Map_values (networks (this m))) m)
    as Hk.
  destruct (dispose_all respond _ m) as [[[]|e] m1]; simpl in *.
  - apply cache_ok_parts. simpl. repeat split; constructor.
  - now apply (cache_kept_ok m).
Qed.

(** The cache invariant holds of every reachable machine, and its
    options are an object. *)
Lemma reachable_cache_ok (m : Machine) : reachable m -> cache_ok m = true.
Proof.
  induction 1 as [m Hc|m config s _ IH|m name _ IH|m _ IH|m ch pm _ IH].
  - destruct Hc as [a [w H]]. unfold constructor in H. run.
    destruct (respond _ w) as [[enabled|e] w']; [|discriminate].
    injection H as <-. reflexivity.
  - exact (cache_kept_ok _ _ (connect_keeps_cache config s m) IH).
  - now apply getNetwork_cache_ok.
  - now apply disconnect_cache_ok.
  - exact (cache_kept_ok _ _ (createQueryHandler_keeps_cache ch pm m) IH).
Qed.

Lemma getNetwork_keeps_options name :
  steps (keeps options) (getNetwork respond name).
Proof. unfold getNetwork. follow kept. Qed.

Lemma disconnect_keeps_options : steps (keeps options) (disconnect respond).
Proof.
  unfold disconnect. apply steps_bind; [exact _ | | intro].
  - apply steps_read; exact _.
  - apply steps_bind; [exact _ | apply dispose_all_keeps | intro].
    apply steps_update. intro. kept.
Qed.

Lemma createQueryHandler_keeps_options channel peerMap :
  steps (keeps options) (_createQueryHandler respond channel peerMap).
Proof. unfold _createQueryHandler, getCurrentIdentity. follow kept. Qed.

Lemma reachable_options (m : Machine) :
  reachable m -> instanceofObject (options (this m)) = true.
Proof.
  induction 1 as [m Hc|m config s _ IH|m name _ IH|m _ IH|m ch pm _ IH].
  - destruct (constructed_options m Hc) as [o [enabled ->]]. reflexivity.
  - destruct (omits_wallet s) eqn:Hw.
    + now rewrite connect_unfold, Hw.
    + rewrite connect_options by assumption.
      apply mergeOptions_obj. now rewrite prepared_obj.
  - now rewrite getNetwork_keeps_options.
  - now rewrite disconnect_keeps_options.
  - now rewrite createQueryHandler_keeps_options.
Qed.

Lemma dispose_all_run ns (m : Machine) :
  dispose_returns ->
  exists es w,
    dispose_all respond ns m
    = (inl tt, mkMachine (this m) (next_addr m) (trace m ++ es) w) /\
    map fst es = map Network_dispose ns.
Proof.
  intros Hd. revert m. induction ns as [|n ns IH]; intros m; simpl.
  - exists [], (world m). rewrite app_nil_r. split; [|reflexivity].
    unfold ret. now rewrite machine_eta.
  - destruct (Hd n (world m)) as [v [w1 Hr]].
    unfold bind, extern. rewrite Hr.
    destruct (IH (mkMachine (this m) (next_addr m)
                    (trace m ++ [(Network_dispose n, inl v)]) w1))
      as [es [w [Hrun Hes]]].
    simpl in Hrun. exists ((Network_dispose n, inl v) :: es), w.
    cbn beta iota. rewrite <- app_assoc in Hrun.
    split; [exact Hrun | simpl; now rewrite Hes].
Qed.






(** *** More on the network cache *)

Lemma Map_get_set_other k k' n nets :
  k <> k' -> Map_get k (Map_set k' n nets) = Map_get k nets.
Proof.
  intros Hne. induction nets as [|[k0 n0] nets IH]; simpl.
  - destruct (String.eqb_spec k' k); congruence.
  - destruct (String.eqb_spec k0 k') as [->|Hne0]; simpl.
    + destruct (String.eqb_spec k' k); congruence.
    + now rewrite IH.
Qed.

Lemma Map_get_addr k n nets :
  Map_get k nets = Some n -> In (net_addr n) (map net_addr (Map_values nets)).
Proof.
  induction nets as [|[k0 n0] nets IH]; simpl; [discriminate|].
  destruct (k0 =? k)%string.
  - intros H; injection H as ->. now left.
  - intros H. right. now apply IH.
Qed.

Lemma distinct_addrs_head a l :
  distinct_addrs (a :: l) = true -> ~ In a l /\ distinct_addrs l = true.
Proof.
  simpl. rewrite andb_true_iff, negb_true_iff. intros [Hex Hd].
  split; [|exact Hd]. intros Hin.
  assert (existsb (Nat.eqb a) l = true) as E; [|congruence].
  apply existsb_exists. exists a. split; [exact Hin | apply Nat.eqb_refl].
Qed.

(** Instances cached under two names are two objects. *)
Lemma cache_names_addrs nets k1 k2 x y :
  distinct_addrs (map net_addr (Map_values nets)) = true ->
  Map_get k1 nets = Some x ->
  Map_get k2 nets = Some y ->
  k1 <> k2 ->
  net_addr x <> net_addr y.
Proof.
  induction nets as [|[k0 n0] nets IH]; simpl; [discriminate|].
  intros Hd H1 H2 Hne.
  apply distinct_addrs_head in Hd. destruct Hd as [Hn Hd].
  destruct (String.eqb_spec k0 k1) as [E1|N1];
    destruct (String.eqb_spec k0 k2) as [E2|N2].
  - congruence.
  - injection H1 as <-. apply Map_get_addr in H2. intros E.
    apply Hn. now rewrite E.
  - injection H2 as <-. apply Map_get_addr in H1. intros E.
    apply Hn. now rewrite <- E.
  - now apply IH.
Qed.

(** A call of [getNetwork] touches no other name of the cache. *)
Lemma getNetwork_keeps_others name other (m : Machine) :
  other <> name ->
  Map_get other (networks (this (snd (getNetwork respond name m))))
  = Map_get other (networks (this m)).
Proof.
  intros Hne. run.
  destruct (Map_get name (networks (this m))) as [n0|] eqn:Hget; simpl;
    [reflexivity|].
  destruct (client (this m)) as [| | | | |ca cfs]; simpl;
    try reflexivity;
    (answer; simpl; [|reflexivity]);
    (destruct (strict_eq _ VNull); simpl;
     [answer; simpl; [|reflexivity] |]);
    (destruct (getProp (options (this m)) "discovery") as [disc|e]; simpl;
     [|reflexivity]);
    (answer; simpl; [|reflexivity]);
    now apply Map_get_set_other.
Qed.

(** X1. On a Gateway that has never been connected, [getNetwork] throws a
    TypeError for every name, before any call is made and without
    touching the Gateway: its client is still [null]. *)
Theorem getNetwork_before_connect name (m : Machine) :
  constructed m ->
  getNetwork respond name m
  = (inr (TypeError "Cannot read property of null"), m).
Proof.
  intros [a [w H]]. unfold constructor in H. run.
  destruct (respond _ w) as [[enabled|e] w']; [|discriminate].
  injection H as <-. reflexivity.
Qed.

Ltac unchanged H := intros _; split; [reflexivity | exact H].

(** X2. A [getNetwork] that throws caches nothing: the cache is as it
    was, the name is still not in it, so the next call for that name
    starts over. *)
Theorem getNetwork_thrown_not_cached name (m : Machine) e :
  fst (getNetwork respond name m) = inr e ->
  networks (this (snd (getNetwork respond name m))) = networks (this m) /\
  Map_get name (networks (this (snd (getNetwork respond name m)))) = None.
Proof.
  run.
  destruct (Map_get name (networks (this m))) as [n0|] eqn:Hget; simpl;
    [discriminate|].
  destruct (client (this m)) as [| | | | |ca cfs]; simpl;
    try (unchanged Hget);
    (answer; simpl; [|unchanged Hget]);
    (destruct (strict_eq _ VNull); simpl;
     [answer; simpl; [|unchanged Hget] |]);
    (destruct (getProp (options (this m)) "discovery") as [disc|e0]; simpl;
     [|unchanged Hget]);
    (answer; simpl; [discriminate | unchanged Hget]).
Qed.

(** X3. Two channel names get two Network instances: when [getNetwork]
    returns for one name and then for another, the two instances are
    distinct objects, and the first is still the one cached under its
    name. *)
Theorem getNetwork_distinct_names name1 name2 (m m1 m2 : Machine) x y :
  cache_ok m = true ->
  name1 <> name2 ->
  getNetwork respond name1 m = (inl x, m1) ->
  getNetwork respond name2 m1 = (inl y, m2) ->
  net_addr x <> net_addr y /\
  getNetwork respond name1 m2 = (inl x, m2).
Proof.
  intros Hok Hne H1 H2.
  assert (cache_ok m2 = true) as Hok2.
  { replace m2 with (snd (getNetwork respond name2 m1)) by now rewrite H2.
    apply getNetwork_cache_ok.
    replace m1 with (snd (getNetwork respond name1 m)) by now rewrite H1.
    now apply getNetwork_cache_ok. }
  pose proof (getNetwork_cached name2 m1 m2 y H2) as Hy.
  assert (Map_get name1 (networks (this m2)) = Some x) as Hx.
  { replace m2 with (snd (getNetwork respond name2 m1)) by now rewrite H2.
    rewrite getNetwork_keeps_others by exact Hne.
    now apply (getNetwork_cached name1 m m1 x). }
  split.
  - apply cache_ok_parts in Hok2. destruct Hok2 as [Hd _].
    now apply (cache_names_addrs (networks (this m2)) name1 name2).
  - unfold getNetwork, bind, read, ret. simpl. now rewrite Hx.
Qed.

(** X4. [connect] leaves the network cache alone: a Network that
    [getNetwork] has returned is still the one returned for its name after
    any later [connect], whatever its options and however it ends. *)
Theorem connect_keeps_networks name (m m1 : Machine) n config s :
  getNetwork respond name m = (inl n, m1) ->
  let m2 := snd (connect respond config s m1) in
  getNetwork respond name m2 = (inl n, m2).
Proof.
  intros H m2. subst m2. apply getNetwork_cached in H.
  destruct (connect_keeps_cache config s m1) as [Hn _].
  unfold getNetwork, bind, read, ret. simpl. now rewrite Hn, H.
Qed.

(** X5. A second [disconnect] does nothing: when every [_dispose]
    returns, [disconnect] on a Gateway that has just been disconnected
    returns without a call and leaves the machine as it is. *)
Theorem disconnect_twice (m : Machine) :
  dispose_returns ->
  let m1 := snd (disconnect respond m) in
  disconnect respond m1 = (inl tt, m1).
Proof.
  intros Hd m1. subst m1.
  destruct (dispose_all_run (Map_values (networks (this m))) m Hd)
    as [es [w [Hrun _]]].
  assert (disconnect respond m
          = (inl tt,
             mkMachine (set_networks [] (this m)) (next_addr m)
               (trace m ++ es) w)) as E.
  { unfold disconnect, bind, read, update. simpl. now rewrite Hrun. }
  rewrite E. reflexivity.
Qed.

(** X6. The invariant of the network cache, in every state a program can
    reach: no instance is cached under two names, and every cached
    instance lies at an address the Gateway has already taken, so a newly
    built one is none of them. *)
Theorem cache_invariant (m : Machine) :
  reachable m ->
  (forall name1 name2 x y,
      Map_get name1 (networks (this m)) = Some x ->
      Map_get name2 (networks (this m)) = Some y ->
      net_addr x = net_addr y -> name1 = name2 /\ x = y) /\
  (forall name x,
      Map_get name (networks (this m)) = Some x ->
      (net_addr x < next_addr m)%nat).
Proof.
  intros Hr. pose proof (reachable_cache_ok m Hr) as Hok.
  apply cache_ok_parts in Hok. destruct Hok as [Hd [Hlt _]]. split.
  - intros name1 name2 x y H1 H2 E.
    destruct (string_dec name1 name2) as [->|Hne].
    + split; [reflexivity | congruence].
    + exfalso.
      now apply (cache_names_addrs _ name1 name2 x y Hd H1 H2 Hne).
  - intros name x H. rewrite Forall_forall in Hlt. apply Hlt.
    clear Hd Hlt. revert H.
    induction (networks (this m)) as [|[k0 n0] nets IH]; simpl;
      [discriminate|].
    destruct (k0 =? name)%string.
    + intros H; injection H as ->. now left.
    + intros H. right. now apply IH.
Qed.

(** How [dispose_all] ends: with every instance disposed of, or at the
    first [_dispose] that throws. *)
Lemma dispose_all_cases ns (m : Machine) :
  let r := fst (dispose_all respond ns m) in
  let m' := snd (dispose_all respond ns m) in
  this m' = this m /\
  exists es,
    trace m' = trace m ++ es /\
    ((r = inl tt /\ map fst es = map Network_dispose ns /\
      Forall returned es) \/
     (exists finished n rest e es0,
         ns = finished ++ n :: rest /\
         es = es0 ++ [(Network_dispose n, inr e)] /\
         map fst es0 = map Network_dispose finished /\
         Forall returned es0 /\
         r = inr e)).
Proof.
  revert m. induction ns as [|n ns IH]; intros m; simpl.
  - split; [reflexivity|]. exists []. rewrite app_nil_r.
    split; [reflexivity|]. left. repeat split; constructor.
  - unfold bind, extern.
    destruct (respond (Network_dispose n) (world m)) as [[v|e] w1].
    + cbn beta iota.
      destruct (IH (mkMachine (this m) (next_addr m)
                      (trace m ++ [(Network_dispose n, inl v)]) w1))
        as [Hthis [es [Htrace Hcases]]].
      simpl in Hthis, Htrace. split; [exact Hthis|].
      exists ((Network_dispose n, inl v) :: es).
      split; [etransitivity; [exact Htrace | now rewrite <- app_assoc]|].
      destruct Hcases as [[Hr [Hmap Hall]]|
                          [finished [n' [rest [e [es0 [Hns [Hes [Hmap [Hall Hr]]]]]]]]]].
      * left. split; [exact Hr|]. split; [simpl; now rewrite Hmap|].
        constructor; [now exists v | exact Hall].
      * right. exists (n :: finished), n', rest, e,
          ((Network_dispose n, inl v) :: es0).
        split; [simpl; now rewrite Hns|].
        split; [simpl; now rewrite Hes|].
        split; [simpl; now rewrite Hmap|].
        split; [constructor; [now exists v | exact Hall] | exact Hr].
    + cbn beta iota. simpl. split; [reflexivity|].
      exists [(Network_dispose n, inr e)]. split; [reflexivity|].
      right. exists [], n, ns, e, []. repeat split. constructor.
Qed.

(** X7. [disconnect] stops at the first [_dispose] that throws: it throws
    that error, the Networks before it in the cache have been disposed
    of and have returned, the ones after it are not disposed of, and the
    cache is not cleared. *)
Theorem disconnect_aborts (m : Machine) e :
  fst (disconnect respond m) = inr e ->
  let m' := snd (disconnect respond m) in
  networks (this m') = networks (this m) /\
  exists finished n rest es,
    Map_values (networks (this m)) = finished ++ n :: rest /\
    new_events m m' = es ++ [(Network_dispose n, inr e)] /\
    map fst es = map Network_dispose finished /\
    Forall returned es.
Proof.
  intros Hr m'. subst m'.
  pose proof (dispose_all_cases (Map_values (networks (this m))) m) as Hc.
  cbv zeta in Hc. destruct Hc as [Hthis [es [Htrace Hcases]]].
  revert Hr. unfold disconnect, bind, read, update. simpl.
  destruct (dispose_all respond (Map_values (networks (this m))) m)
    as [[[]|e1] m1] eqn:Hrun; simpl in *; [discriminate|].
  intros H; injection H as ->.
  split; [now rewrite Hthis|].
  destruct Hcases as [[Hr _]|
                      [finished [n [rest [e' [es0 [Hns [Hes [Hmap [Hall Hr]]]]]]]]]];
    [discriminate|].
  injection Hr as <-.
  exists finished, n, rest, es0.
  split; [exact Hns|]. split; [|split; assumption].
  rewrite <- Hes. now apply new_events_app.
Qed.

(** *** More on the options *)

Lemma mergeOptions_same_object a fs s :
  exists fs', fst (_mergeOptions (VObj a fs) s) = VObj a fs'.
Proof.
  destruct s as [| | | | |b props]; try (exists fs; reflexivity).
  rewrite mergeOptions_props. apply merge_props_obj.
Qed.

(** X8. The Gateway's options are one object for its whole life: in
    every reachable state [getOptions] returns an object, [connect]
    changes it in place (the object after is [===] the object before),
    and no other method changes it at all. *)
Theorem getOptions_same_object (m : Machine) :
  reachable m ->
  instanceofObject (options (this m)) = true /\
  (forall config s,
      strict_eq (options (this m))
        (options (this (snd (connect respond config s m)))) = true) /\
  (forall name,
      options (this (snd (getNetwork respond name m))) = options (this m)) /\
  options (this (snd (disconnect respond m))) = options (this m) /\
  (forall channel peerMap,
      options (this (snd (_createQueryHandler respond channel peerMap m)))
      = options (this m)).
Proof.
  intros Hr. pose proof (reachable_options m Hr) as Ho.
  split; [exact Ho|]. split; [|split; [|split]].
  - intros config s. destruct (omits_wallet s) eqn:Hw.
    + rewrite connect_unfold, Hw. simpl.
      destruct (options (this m)); try discriminate. apply Nat.eqb_refl.
    + rewrite connect_options by assumption.
      destruct (options (this m)) as [| | | | |a fs]; try discriminate.
      assert (exists fs0, prepared (VObj a fs) s = VObj a fs0) as [fs0 ->].
      { unfold prepared. destruct (drops_queryHandlerOptions _ s);
          simpl; eauto. }
      destruct (mergeOptions_same_object a fs0 s) as [fs' ->].
      apply Nat.eqb_refl.
  - intros name. apply getNetwork_keeps_options.
  - apply disconnect_keeps_options.
  - intros channel peerMap. apply createQueryHandler_keeps_options.
Qed.

Lemma assign_keys k v fs :
  exists extra,
    keys (assign k v fs) = keys fs ++ extra /\
    forall k', In k' extra -> k' = k /\ ~ In k (keys fs).
Proof.
  induction fs as [|[k0 v0] fs IH]; simpl.
  - exists [k]. split; [reflexivity|]. intros k' [<-|[]]. auto.
  - destruct (String.eqb_spec k0 k) as [->|Hne]; simpl.
    + exists []. rewrite app_nil_r. split; [reflexivity|]. intros k' [].
    + destruct IH as [extra [Hk Hin]]. exists extra.
      split; [now rewrite Hk|]. intros k' Hk'.
      destruct (Hin k' Hk') as [-> Hn]. split; [reflexivity|].
      intros [E|H]; [congruence | contradiction].
Qed.

Lemma merge_step_keys a fs k sv :
  exists extra,
    keys (properties (fst (merge_step (VObj a fs) k sv)))
    = keys fs ++ extra /\
    forall k', In k' extra -> k' = k /\ ~ In k (keys fs).
Proof.
  assert (exists extra, keys fs = keys fs ++ extra /\
                        forall k', In k' extra -> k' = k /\ ~ In k (keys fs))
    as Hnone.
  { exists []. rewrite app_nil_r. split; [reflexivity|]. intros k' []. }
  unfold merge_step, store. simpl.
  destruct (instanceofObject sv && endsWith k "Options").
  - destruct (lookup k fs) as [cur|]; simpl.
    + destruct (is_undefined cur); simpl; [apply assign_keys|].
      destruct (_mergeOptions cur sv). simpl. apply assign_keys.
    + apply assign_keys.
  - simpl. apply assign_keys.
Qed.

Lemma merge_props_keys props a fs :
  exists extra,
    keys (properties (fst (merge_props props (VObj a fs))))
    = keys fs ++ extra /\
    forall k, In k extra -> In k (keys props) /\ ~ In k (keys fs).
Proof.
  revert fs. induction props as [|[k sv] rest IH]; intros fs; simpl.
  - exists []. rewrite app_nil_r. split; [reflexivity|]. intros k [].
  - destruct (merge_step_keys a fs k sv) as [extra1 [Hk1 Hin1]].
    destruct (merge_step_obj a fs k sv) as [fs1 H1].
    destruct (merge_step (VObj a fs) k sv) as [t1 [e|]]; simpl in *; subst t1;
      simpl in Hk1.
    + exists extra1. split; [exact Hk1|]. intros k' Hk'.
      destruct (Hin1 k' Hk') as [-> Hn]. auto.
    + destruct (IH fs1) as [extra2 [Hk2 Hin2]].
      exists (extra1 ++ extra2). split.
      * rewrite Hk2, Hk1. now rewrite app_assoc.
      * intros k' Hk'. apply in_app_or in Hk'. destruct Hk' as [Hk'|Hk'].
        -- destruct (Hin1 k' Hk') as [-> Hn]. auto.
        -- destruct (Hin2 k' Hk') as [Hr Hn]. split; [now right|].
           intros Hf. apply Hn. rewrite Hk1. apply in_or_app. now left.
Qed.


(** *** More on [connect] *)

Lemma prepare_options_keeps_queryHandlerClass s :
  steps (keeps queryHandlerClass) (prepare_options s).
Proof.
  unfold prepare_options, other_queryHandler, merge_into_options.
  follow kept.
Qed.

Lemma load_client_keeps_queryHandlerClass config :
  steps (keeps queryHandlerClass) (load_client respond config).
Proof. unfold load_client. follow kept. Qed.

Lemma setup_identity_keeps_queryHandlerClass s :
  steps (keeps queryHandlerClass) (setup_identity respond s).
Proof. unfold setup_identity. follow kept. Qed.

Lemma stage5_keeps_queryHandlerClass config s (m : Machine) :
  queryHandlerClass (this (snd (stage5 config s m)))
  = queryHandlerClass (this m).
Proof.
  pose proof (prepare_options_keeps_queryHandlerClass s m) as H1.
  pose proof (after_steps _ (fst (stage1 s m)) _
                (load_client_keeps_queryHandlerClass config)
                (snd (stage1 s m))) as H2.
  pose proof (after_steps _ (fst (stage2 config s m)) _
                (setup_identity_keeps_queryHandlerClass s)
                (snd (stage2 config s m))) as H3.
  pose proof (after_steps _ (fst (stage3 config s m)) _
                (setup_clientTlsIdentity_keeps queryHandlerClass s)
                (snd (stage3 config s m))) as H4.
  pose proof (after_steps _ (fst (stage4 config s m)) _
                (setup_tlsInfo_keeps queryHandlerClass s)
                (snd (stage4 config s m))) as H5.
  fold (stage1 s m) in H1. fold (stage2 config s m) in H2.
  fold (stage3 config s m) in H3. fold (stage4 config s m) in H4.
  fold (stage5 config s m) in H5.
  unfold keeps in *. congruence.
Qed.

(** Without a query handler in the merged options the last stage does
    nothing. *)
Lemma stage6_nothing_to_load config s (m : Machine) :
  omits_wallet s = false ->
  instanceofObject (options (this m)) = true ->
  truthy (get (options (this (snd (stage6 config s m)))) "queryHandler")
  = false ->
  snd (stage6 config s m) = snd (stage5 config s m).
Proof.
  intros Hw Ho Hf.
  destruct (stage_options config s m Hw Ho) as [Hobj [E5 E6]].
  rewrite E6, <- E5 in Hf. rewrite <- E5 in Hobj.
  pose proof (load_queryHandler_run (snd (stage5 config s m)) Hobj) as Hrun.
  cbv zeta in Hrun. rewrite Hf in Hrun.
  unfold stage6, after.
  destruct (fst (stage5 config s m)); [now rewrite Hrun | reflexivity].
Qed.

(** X10. Without a query handler in the merged options (the options set
    [queryHandler] to [null], say), [connect] loads nothing: it never
    calls [require] and leaves the query handler class as it was, so a
    class that an earlier [connect] loaded stays in use.  When there was
    none, [_createQueryHandler] afterwards returns [null] without a call. *)
Theorem connect_without_queryHandler config s (m : Machine) :
  omits_wallet s = false ->
  instanceofObject (options (this m)) = true ->
  let m' := snd (connect respond config s m) in
  truthy (get (options (this m')) "queryHandler") = false ->
  queryHandlerClass (this m') = queryHandlerClass (this m) /\
  (forall id r, ~ In (Node_require id, r) (new_events m m')) /\
  (truthy (queryHandlerClass (this m)) = false ->
   forall channel peerMap,
     _createQueryHandler respond channel peerMap m' = (inl VNull, m')).
Proof.
  intros Hw Ho m'. subst m'.
  pose proof (connect_events config s m Hw) as Hev.
  rewrite connect_stages in * by exact Hw.
  intros Hf.
  pose proof (stage6_nothing_to_load config s m Hw Ho Hf) as E6.
  assert (queryHandlerClass (this (snd (stage6 config s m)))
          = queryHandlerClass (this m)) as Hcls.
  { rewrite E6. apply stage5_keeps_queryHandlerClass. }
  split; [exact Hcls|]. split.
  - intros id r Hin. rewrite Hev in Hin. rewrite !in_app_iff in Hin.
    pose proof (stage_calls config s m (Node_require id) r)
      as [K2 [K3 [K4 [K5 _]]]].
    destruct Hin as [Hin|[Hin|[Hin|[Hin|Hin]]]].
    + destruct (K2 Hin) as [ccp Hc]. discriminate.
    + specialize (K3 Hin). discriminate.
    + destruct (K4 Hin); discriminate.
    + specialize (K5 Hin). discriminate.
    + rewrite E6, new_events_same in Hin. destruct Hin.
  - intros Hnone channel peerMap.
    unfold _createQueryHandler, bind, read, ret. simpl.
    now rewrite Hcls, Hnone.
Qed.

Lemma constructed_fields m :
  constructed m ->
  client (this m) = VNull /\ currentIdentity (this m) = VUndef /\
  queryHandlerClass (this m) = VUndef /\ networks (this m) = [].
Proof.
  intros [a [w H]]. unfold constructor in H. run.
  destruct (respond _ w) as [[enabled|e] w']; [|discriminate].
  injection H as <-. repeat split.
Qed.

(** A [connect] without an identity leaves the identity as it is. *)
Lemma connect_keeps_identity config s (m : Machine) :
  truthy (get s "identity") = false ->
  currentIdentity (this (snd (connect respond config s m)))
  = currentIdentity (this m).
Proof.
  intros Hi. destruct (omits_wallet s) eqn:Hw.
  - now rewrite connect_unfold, Hw.
  - rewrite connect_stages by exact Hw.
    destruct (stages_keep_currentIdentity config s m) as [H2 H6].
    rewrite H6, <- H2. unfold stage3, after.
    destruct (fst (stage2 config s m)); [|reflexivity].
    now rewrite setup_identity_skipped by (auto using omits_wallet_obj).
Qed.

(** X11. A Gateway connected without an identity has none: after a first
    [connect] whose options carry no identity, [getCurrentIdentity]
    returns [undefined], and [_createQueryHandler] with a loaded query
    handler class throws a TypeError before it makes a call. *)
Theorem createQueryHandler_without_identity config s (m : Machine) :
  constructed m ->
  truthy (get s "identity") = false ->
  let m' := snd (connect respond config s m) in
  getCurrentIdentity m' = (inl VUndef, m') /\
  (truthy (queryHandlerClass (this m')) = true ->
   forall channel peerMap,
     _createQueryHandler respond channel peerMap m'
     = (inr (TypeError "Cannot read property of undefined"), m')).
Proof.
  intros Hc Hi m'. subst m'.
  destruct (constructed_fields m Hc) as [_ [Hu _]].
  pose proof (connect_keeps_identity config s m Hi) as Hk.
  rewrite Hu in Hk. split.
  - unfold getCurrentIdentity, read. now rewrite Hk.
  - intros Hcls channel peerMap.
    unfold _createQueryHandler, getCurrentIdentity, bind, read. simpl.
    rewrite Hcls. simpl. now rewrite Hk.
Qed.

Lemma new_events_none (m : Machine) g a w :
  new_events m (mkMachine g a (trace m) w) = [].
Proof. apply new_events_app. simpl. now rewrite app_nil_r. Qed.

Lemma load_client_run config (m : Machine) :
  load_client respond config m
  = match config with
    | ClientInstance c =>
        (inl tt,
         mkMachine (set_client c (this m)) (next_addr m) (trace m) (world m))
    | ConnectionProfile ccp =>
        match respond (Client_loadFromConfig ccp) (world m) with
        | (inl c, w) =>
            (inl tt,
             mkMachine (set_client c (this m)) (next_addr m)
               (trace m ++ [(Client_loadFromConfig ccp, inl c)]) w)
        | (inr e, w) =>
            (inr e,
             mkMachine (this m) (next_addr m)
               (trace m ++ [(Client_loadFromConfig ccp, inr e)]) w)
        end
    end.
Proof.
  destruct config as [c|ccp]; [reflexivity|].
  unfold load_client, bind, extern, update.
  destruct (respond _ (world m)) as [[c|e] w]; reflexivity.
Qed.

Lemma connect_returned_stages config s (m : Machine) :
  fst (stage6 config s m) = inl tt ->
  fst (stage1 s m) = inl tt /\ fst (stage2 config s m) = inl tt /\
  fst (stage3 config s m) = inl tt /\ fst (stage4 config s m) = inl tt /\
  fst (stage5 config s m) = inl tt.
Proof.
  intros H6.
  unfold stage6 in H6. apply after_returned in H6. destruct H6 as [H5 _].
  pose proof H5 as H5'.
  unfold stage5 in H5. apply after_returned in H5. destruct H5 as [H4 _].
  pose proof H4 as H4'.
  unfold stage4 in H4. apply after_returned in H4. destruct H4 as [H3 _].
  pose proof H3 as H3'.
  unfold stage3 in H3. apply after_returned in H3. destruct H3 as [H2 _].
  pose proof H2 as H2'.
  unfold stage2 in H2. apply after_returned in H2. destruct H2 as [H1 _].
  auto.
Qed.

(** X12. The client of a connected Gateway.  Given a prebuilt Client,
    [connect] never calls [Client.loadFromConfig], and when it returns
    [getClient] is that Client.  Given a connection profile, a [connect]
    that returns has called [Client.loadFromConfig] on the profile before
    any other call, and [getClient] is the Client that call returned. *)
Theorem connect_client s (m : Machine) :
  omits_wallet s = false ->
  (forall c,
      let r := fst (connect respond (ClientInstance c) s m) in
      let m' := snd (connect respond (ClientInstance c) s m) in
      (forall ccp ans,
          ~ In (Client_loadFromConfig ccp, ans) (new_events m m')) /\
      (r = inl tt -> getClient m' = (inl c, m'))) /\
  (forall ccp,
      let r := fst (connect respond (ConnectionProfile ccp) s m) in
      let m' := snd (connect respond (ConnectionProfile ccp) s m) in
      r = inl tt ->
      exists c rest,
        new_events m m' = (Client_loadFromConfig ccp, inl c) :: rest /\
        getClient m' = (inl c, m')).
Proof.
  intros Hw. split.
  - intros c r m'. subst r m'.
    pose proof (connect_events (ClientInstance c) s m Hw) as Hev.
    rewrite connect_stages in * by exact Hw.
    assert (new_events (snd (stage1 s m)) (snd (stage2 (ClientInstance c) s m))
            = []) as N2.
    { unfold stage2, after. destruct (fst (stage1 s m)).
      - rewrite load_client_run. simpl. apply new_events_none.
      - apply new_events_same. }
    split.
    + intros ccp ans Hin. rewrite Hev, N2 in Hin. simpl in Hin.
      rewrite !in_app_iff in Hin.
      pose proof (stage_calls (ClientInstance c) s m
                    (Client_loadFromConfig ccp) ans) as [_ [K3 [K4 [K5 K6]]]].
      destruct Hin as [Hin|[Hin|[Hin|Hin]]].
      * specialize (K3 Hin). discriminate.
      * destruct (K4 Hin); discriminate.
      * specialize (K5 Hin). discriminate.
      * specialize (K6 Hin). discriminate.
    + intros Hr. apply connect_returned_stages in Hr.
      destruct Hr as [H1 _].
      unfold getClient, read.
      destruct (stages_keep_client (ClientInstance c) s m) as [Hc3 _].
      rewrite <- Hc3, stage3_keeps_client.
      unfold stage2, after. rewrite H1. now rewrite load_client_run.
  - intros ccp r m'. subst r m'.
    pose proof (connect_events (ConnectionProfile ccp) s m Hw) as Hev.
    rewrite connect_stages in * by exact Hw.
    intros Hr. apply connect_returned_stages in Hr.
    destruct Hr as [H1 [H2 _]].
    assert (exists c,
               new_events (snd (stage1 s m))
                 (snd (stage2 (ConnectionProfile ccp) s m))
               = [(Client_loadFromConfig ccp, inl c)] /\
               client (this (snd (stage2 (ConnectionProfile ccp) s m))) = c)
      as [c [N2 Hc]].
    { assert (stage2 (ConnectionProfile ccp) s m
              = after (fst (stage1 s m))
                  (load_client respond (ConnectionProfile ccp))
                  (snd (stage1 s m))) as E2 by reflexivity.
      clear Hev. rewrite E2 in *. rewrite H1 in *. unfold after in *.
      rewrite load_client_run in *.
      destruct (respond _ (world (snd (stage1 s m)))) as [[c|e] w];
        [|discriminate].
      exists c. simpl. rewrite new_events_one. auto. }
    unfold getClient, read.
    destruct (stages_keep_client (ConnectionProfile ccp) s m) as [Hc3 _].
    rewrite <- Hc3, stage3_keeps_client, Hc. rewrite Hev, N2.
    exists c. eexists. split; reflexivity.
Qed.

(** *** Merging the same options again *)

(** Induction on a value and the values of its properties. *)
Lemma value_induction (P : value -> Prop) :
  P VUndef -> P VNull -> (forall b, P (VBool b)) -> (forall n, P (VNum n)) ->
  (forall t, P (VStr t)) ->
  (forall a fs, Forall (fun kv => P (snd kv)) fs -> P (VObj a fs)) ->
  forall v, P v.
Proof.
  intros Hu Hn Hb Hz Hs Ho.
  fix IH 1. intros [| | b | n | t | a fs].
  - exact Hu.
  - exact Hn.
  - apply Hb.
  - apply Hz.
  - apply Hs.
  - apply Ho. induction fs as [|[k x] fs IHfs]; constructor.
    + apply IH.
    + exact IHfs.
Qed.

Lemma assign_same k v fs : lookup k fs = Some v -> assign k v fs = fs.
Proof.
  induction fs as [|[k0 v0] fs IH]; simpl; [discriminate|].
  destruct (String.eqb_spec k0 k) as [->|Hne].
  - intros H; injection H as ->. reflexivity.
  - intros H. now rewrite IH.
Qed.

Lemma assign_absent k v fs :
  lookup k fs = None -> assign k v fs = fs ++ [(k, v)].
Proof.
  induction fs as [|[k0 v0] fs IH]; simpl; [reflexivity|].
  destruct (k0 =? k)%string; [discriminate|]. intros H. now rewrite IH.
Qed.

Lemma lookup_app_absent k fs gs :
  lookup k fs = None -> lookup k (fs ++ gs) = lookup k gs.
Proof.
  induction fs as [|[k0 v0] fs IH]; simpl; [reflexivity|].
  destruct (k0 =? k)%string; [discriminate | exact IH].
Qed.

Lemma In_lookup k v fs :
  distinct (keys fs) = true -> In (k, v) fs -> lookup k fs = Some v.
Proof.
  induction fs as [|[k0 v0] fs IH]; intros Hd Hin; [destruct Hin|].
  apply (proj1 (distinct_cons k0 (keys fs))) in Hd. destruct Hd as [Hn Hd].
  simpl. destruct Hin as [E|Hin].
  - injection E as -> ->. now rewrite String.eqb_refl.
  - destruct (String.eqb_spec k0 k) as [->|Hne]; [|now apply IH].
    exfalso. apply Hn. apply (in_map fst) in Hin. exact Hin.
Qed.

(** Merging into something that is no object changes nothing, and throws
    as soon as there is a property to merge. *)
Lemma merge_props_primitive props d :
  instanceofObject d = false ->
  fst (merge_props props d) = d /\
  (props <> [] -> snd (merge_props props d) <> None).
Proof.
  intros Hd. destruct props as [|[k sv] rest]; simpl.
  - split; [reflexivity | congruence].
  - assert (exists e, merge_step d k sv = (d, Some e)) as [e ->].
    { unfold merge_step, store.
      destruct d; try discriminate; simpl;
        destruct (instanceofObject sv && endsWith k "Options"); simpl; eauto. }
    split; [reflexivity | discriminate].
Qed.

Lemma mergeOptions_primitive d s :
  instanceofObject d = false -> fst (_mergeOptions d s) = d.
Proof.
  intros Hd. destruct s as [| | | | |b props]; try reflexivity.
  rewrite mergeOptions_props. now apply merge_props_primitive.
Qed.

(** A merge that returns leaves every supplied property in place. *)
Lemma merge_props_has_key props a fs k :
  In k (keys props) ->
  snd (merge_props props (VObj a fs)) = None ->
  In k (keys (properties (fst (merge_props props (VObj a fs))))).
Proof.
  revert fs. induction props as [|[k0 sv] rest IH]; intros fs Hin;
    [destruct Hin|].
  simpl. destruct (merge_step_keys a fs k0 sv) as [extra1 [Hk1 _]].
  destruct (merge_step_obj a fs k0 sv) as [fs1 H1].
  assert (In k0 (keys fs1)) as Hk0.
  { pose proof (merge_step_value a fs k0 sv) as Hv. rewrite H1 in Hv.
    unfold merge_step, store in H1. simpl in H1.
    destruct (instanceofObject sv && endsWith k0 "Options");
      [destruct (lookup k0 fs) as [cur|]; simpl in H1;
       [destruct (is_undefined cur); simpl in H1;
        [|destruct (_mergeOptions cur sv); simpl in H1] |] |];
      injection H1 as <-;
      apply lookup_None_keys_not; rewrite lookup_assign_same; discriminate. }
  destruct (merge_step (VObj a fs) k0 sv) as [t1 [e|]]; simpl in *; subst t1;
    [discriminate|].
  intros Hret. destruct (merge_props_keys rest a fs1) as [extra [Hk _]].
  destruct Hin as [<-|Hin].
  - rewrite Hk. apply in_or_app. now left.
  - now apply IH.
Qed.

Lemma merge_props_lookup props a fs d' k sv :
  distinct (keys props) = true ->
  merge_props props (VObj a fs) = (d', None) ->
  lookup k props = Some sv ->
  lookup k (properties d')
  = Some (merged_value (get (VObj a fs) k) k sv).
Proof.
  intros Hd Hm Hl.
  destruct (merge_props_returned props a fs d' k sv Hd Hm Hl) as [Hv _].
  assert (In k (keys (properties d'))) as Hin.
  { replace d' with (fst (merge_props props (VObj a fs))) by now rewrite Hm.
    apply merge_props_has_key; [|now rewrite Hm].
    apply lookup_None_keys_not. congruence. }
  destruct (merge_props_obj props a fs) as [fs' Hfs]. rewrite Hm in Hfs.
  simpl in Hfs. subst d'. simpl in *. rewrite get_obj in Hv.
  destruct (lookup k fs') as [x|] eqn:E; [now subst x|].
  apply lookup_None_keys in E. contradiction.
Qed.

(** A merge into an empty object copies the supplied one. *)
Lemma merge_props_fresh props a pre :
  distinct (keys props) = true ->
  (forall k, In k (keys props) -> lookup k pre = None) ->
  merge_props props (VObj a pre) = (VObj a (pre ++ props), None).
Proof.
  revert pre. induction props as [|[k sv] rest IH]; intros pre Hd Hfresh;
    simpl.
  - now rewrite app_nil_r.
  - apply (proj1 (distinct_cons k (keys rest))) in Hd. destruct Hd as [Hn Hd].
    assert (lookup k pre = None) as Hk by (apply Hfresh; now left).
    assert (merge_step (VObj a pre) k sv = (VObj a (pre ++ [(k, sv)]), None))
      as ->.
    { unfold merge_step, store. simpl. rewrite Hk.
      destruct (instanceofObject sv && endsWith k "Options"); simpl;
        now rewrite assign_absent. }
    rewrite IH; [now rewrite <- app_assoc | exact Hd |].
    intros k' Hin. rewrite lookup_app_absent by (apply Hfresh; now right).
    simpl. destruct (String.eqb_spec k k') as [->|Hne]; [contradiction|].
    reflexivity.
Qed.

Lemma merge_props_fixed ps a fs :
  (forall k sv, In (k, sv) ps ->
                merge_step (VObj a fs) k sv = (VObj a fs, None)) ->
  merge_props ps (VObj a fs) = (VObj a fs, None).
Proof.
  induction ps as [|[k sv] rest IH]; intros H; simpl; [reflexivity|].
  rewrite (H k sv) by now left. apply IH. intros k' sv' Hin. apply H.
  now right.
Qed.

(** Merging the same supplied options into the result of a merge changes
    nothing. *)
Lemma mergeOptions_again s :
  wf s = true ->
  forall d,
    snd (_mergeOptions d s) = None ->
    _mergeOptions (fst (_mergeOptions d s)) s
    = (fst (_mergeOptions d s), None).
Proof.
  induction s as [| | b | n | t | b props IH] using value_induction;
    try (intros _ d _; reflexivity).
  intros Hwf d Hret.
  pose proof (wf_properties _ Hwf) as [Hd Hall]. cbn [properties] in Hd, Hall.
  rewrite !mergeOptions_props in *.
  destruct (instanceofObject d) eqn:Hobj.
  - destruct d as [| | | | |a fs]; try discriminate.
    destruct (merge_props_obj props a fs) as [fs' Hfs'].
    destruct (merge_props props (VObj a fs)) as [d' t] eqn:Hm.
    simpl in Hret, Hfs'. subst t d'. simpl fst.
    apply merge_props_fixed. intros k sv Hin.
    pose proof (In_lookup k sv props Hd Hin) as Hl.
    pose proof (merge_props_lookup props a fs _ k sv Hd Hm Hl) as Hk.
    cbn [properties] in Hk.
    destruct (merge_props_returned props a fs _ k sv Hd Hm Hl) as [_ Hnested].
    assert (wf sv = true) as Hwsv by (apply (Hall k); exact Hl).
    rewrite Forall_forall in IH. specialize (IH (k, sv) Hin).
    cbn [snd] in IH.
    unfold merge_step, store. simpl. rewrite Hk.
    unfold merged_value, nested_options in *.
    destruct (instanceofObject sv && endsWith k "Options") eqn:Hn; simpl.
    + assert (instanceofObject sv = true) as Hsv
          by (apply andb_true_iff in Hn; tauto).
      destruct (is_undefined (get (VObj a fs) k)) eqn:Hu.
      * destruct sv as [| | | | |c sprops]; try discriminate.
        cbn [is_undefined].
        assert (_mergeOptions (VObj c []) (VObj c sprops)
                = (VObj c sprops, None)) as Hcopy.
        { rewrite mergeOptions_props.
          pose proof (wf_properties _ Hwsv) as [Hds _].
          cbn [properties] in Hds.
          now rewrite (merge_props_fresh sprops c [] Hds). }
        specialize (IH Hwsv (VObj c [])). rewrite Hcopy in IH.
        cbn [fst snd] in IH.
        rewrite (IH eq_refl). now rewrite assign_same.
      * specialize (Hnested eq_refl eq_refl).
        specialize (IH Hwsv _ Hnested).
        assert (is_undefined (fst (_mergeOptions (get (VObj a fs) k) sv))
                = false) as Hdef.
        { destruct (instanceofObject (get (VObj a fs) k)) eqn:Hg.
          - destruct (get (VObj a fs) k) as [| | | | |g gs];
              try discriminate.
            destruct (mergeOptions_same_object g gs sv) as [gs' ->].
            reflexivity.
          - now rewrite mergeOptions_primitive. }
        rewrite Hdef, IH. now rewrite assign_same.
    + now rewrite assign_same.
  - destruct (merge_props_primitive props d Hobj) as [Hfst Hthrows].
    rewrite Hfst. destruct props as [|kv rest]; [reflexivity|].
    exfalso. apply Hthrows; [discriminate | exact Hret].
Qed.

Lemma strict_eq_refl v : strict_eq v v = true.
Proof.
  destruct v; simpl; try reflexivity.
  - now destruct b.
  - apply Z.eqb_refl.
  - apply String.eqb_refl.
  - apply Nat.eqb_refl.
Qed.

(** X13. Merging is idempotent.  When a merge of supplied options into
    some options returns, merging the same supplied options into the
    result returns the result unchanged; and so a second [connect] with
    the options of a first one, whose merge returned, leaves the
    Gateway's options as the first left them. *)
Theorem connect_options_idempotent config1 config2 s (m : Machine) :
  omits_wallet s = false ->
  wf s = true ->
  instanceofObject (options (this m)) = true ->
  snd (_mergeOptions (prepared (options (this m)) s) s) = None ->
  (forall d,
      snd (_mergeOptions d s) = None ->
      _mergeOptions (fst (_mergeOptions d s)) s
      = (fst (_mergeOptions d s), None)) /\
  let m1 := snd (connect respond config1 s m) in
  options (this (snd (connect respond config2 s m1))) = options (this m1).
Proof.
  intros Hw Hwf Ho Hret. split; [now apply mergeOptions_again|].
  intros m1. subst m1.
  pose proof (connect_options config1 s m Hw Ho) as H1.
  assert (instanceofObject
            (options (this (snd (connect respond config1 s m)))) = true)
    as Ho1.
  { rewrite H1. apply mergeOptions_obj. now rewrite prepared_obj. }
  rewrite (connect_options config2 s _ Hw Ho1).
  assert (prepared (options (this (snd (connect respond config1 s m)))) s
          = options (this (snd (connect respond config1 s m)))) as Hp.
  { unfold prepared, drops_queryHandlerOptions.
    destruct (truthy (get s "queryHandler")) eqn:Ht; [|reflexivity].
    assert (get (options (this (snd (connect respond config1 s m))))
              "queryHandler" = get s "queryHandler") as ->;
      [|now rewrite strict_eq_refl].
    rewrite H1.
    pose proof (omits_wallet_obj s Hw) as Hs.
    pose proof (mergeOptions_returned (prepared (options (this m)) s) s)
      as Hspec.
    rewrite prepared_obj in Hspec.
    specialize (Hspec Ho Hs Hwf Hret "queryHandler").
    destruct s as [| | | | |b props]; try discriminate.
    cbn [properties] in Hspec. rewrite (get_obj b props) in *.
    destruct (lookup "queryHandler" props) as [x|]; [|discriminate].
    destruct Hspec as [Hv _]. rewrite Hv.
    unfold merged_value, nested_options.
    replace (endsWith "queryHandler" "Options") with false by reflexivity.
    now rewrite andb_false_r. }
  rewrite Hp, H1. rewrite mergeOptions_again by assumption. reflexivity.
Qed.

(** *** Where a method stops *)

Lemma orderly_nil {A} (r : result A) : orderly r [].
Proof. left. constructor. Qed.

Lemma runs_orderly_silent {A} (c : M A) :
  (forall m, trace (snd (c m)) = trace m) -> runs_orderly c.
Proof.
  intros H m. exists []. rewrite app_nil_r. split; [apply H | apply orderly_nil].
Qed.

Lemma runs_orderly_ret {A} (a : A) : runs_orderly (@ret World A a).
Proof. now apply runs_orderly_silent. Qed.

Lemma runs_orderly_throw {A} e : runs_orderly (@throw World A e).
Proof. now apply runs_orderly_silent. Qed.

Lemma runs_orderly_lift {A} (r : result A) : runs_orderly (@lift World A r).
Proof. now apply runs_orderly_silent. Qed.

Lemma runs_orderly_prop v k : runs_orderly (@prop World v k).
Proof. apply runs_orderly_lift. Qed.

Lemma runs_orderly_read {A} (f : Gateway -> A) :
  runs_orderly (@read World A f).
Proof. now apply runs_orderly_silent. Qed.

Lemma runs_orderly_update f : runs_orderly (@update World f).
Proof. now apply runs_orderly_silent. Qed.

Lemma runs_orderly_receiver v : runs_orderly (@receiver World v).
Proof. apply runs_orderly_silent. intros m. now destruct v. Qed.

Lemma runs_orderly_extern c :
  is_require c = false -> runs_orderly (extern respond c).
Proof.
  intros Hc m. unfold extern.
  destruct (respond c (world m)) as [[v|e] w]; simpl.
  - exists [(c, inl v)]. split; [reflexivity|]. left.
    constructor; [now exists v | constructor].
  - exists [(c, inr e)]. split; [reflexivity|]. right.
    exists [], c, e. split; [reflexivity|]. split; [constructor|].
    now destruct c.
Qed.

Lemma runs_orderly_bind {A B} (c : M A) (k : A -> M B) :
  runs_orderly c -> (forall a, runs_orderly (k a)) -> runs_orderly (bind c k).
Proof.
  intros Hc Hk m. unfold bind. destruct (Hc m) as [es1 [Ht1 Ho1]].
  destruct (c m) as [[a|e] m1]; simpl in *.
  - destruct (Hk a m1) as [es2 [Ht2 Ho2]]. exists (es1 ++ es2).
    split; [rewrite Ht2, Ht1; now rewrite app_assoc|].
    destruct Ho1 as [F1|[es0 [c0 [e0 [_ [_ Hr]]]]]]; [|discriminate].
    destruct Ho2 as [F2|[es0 [c0 [e0 [He [F0 Hr]]]]]].
    + left. apply Forall_app. now split.
    + right. exists (es1 ++ es0), c0, e0.
      split; [rewrite He; now rewrite app_assoc|].
      split; [apply Forall_app; now split | exact Hr].
  - exists es1. split; [exact Ht1|].
    destruct Ho1 as [F1|[es0 [c0 [e0 [He [F0 Hr]]]]]]; [now left|].
    right. exists es0, c0, e0. injection Hr as ->. auto.
Qed.

Lemma runs_orderly_when b (c : M unit) :
  runs_orderly c -> runs_orderly (when b c).
Proof. intros H. destruct b; [exact H | apply runs_orderly_ret]. Qed.

Ltac in_order :=
  repeat first
    [ apply runs_orderly_ret
    | apply runs_orderly_throw
    | apply runs_orderly_prop
    | apply runs_orderly_lift
    | apply runs_orderly_read
    | apply runs_orderly_receiver
    | apply runs_orderly_update
    | apply runs_orderly_when
    | apply runs_orderly_bind; [|intro]
    | apply runs_orderly_extern; reflexivity
    | match goal with
      | |- runs_orderly (if ?b then _ else _) => destruct b
      | |- runs_orderly (match ?x with _ => _ end) => destruct x
      | |- runs_orderly (let '(_, _) := ?x in _) => destruct x
      end ].

Lemma prepare_options_orderly s : runs_orderly (prepare_options s).
Proof.
  unfold prepare_options, other_queryHandler, merge_into_options. in_order.
Qed.

Lemma load_client_orderly config : runs_orderly (load_client respond config).
Proof. unfold load_client. in_order. Qed.

Lemma setup_identity_orderly s : runs_orderly (setup_identity respond s).
Proof. unfold setup_identity. in_order. Qed.

Lemma setup_clientTlsIdentity_orderly s :
  runs_orderly (setup_clientTlsIdentity respond s).
Proof. unfold setup_clientTlsIdentity. in_order. Qed.

Lemma setup_tlsInfo_orderly s : runs_orderly (setup_tlsInfo respond s).
Proof. unfold setup_tlsInfo. in_order. Qed.

(** Loading the query handler: the error of [require] is wrapped. *)
Lemma load_queryHandler_orderly (m : Machine) :
  instanceofObject (options (this m)) = true ->
  exists es,
    trace (snd (load_queryHandler respond m)) = trace m ++ es /\
    orderly (fst (load_queryHandler respond m)) es.
Proof.
  intros Ho. pose proof (load_queryHandler_run m Ho) as Hrun.
  cbv zeta in Hrun. rewrite Hrun.
  destruct (truthy (get (options (this m)) "queryHandler")).
  - destruct (respond _ (world m)) as [[cls|error] w]; simpl.
    + eexists. split; [reflexivity|]. left.
      constructor; [now exists cls | constructor].
    + eexists. split; [reflexivity|]. right.
      eexists [], _, error. split; [reflexivity|].
      split; [constructor | reflexivity].
  - exists []. rewrite app_nil_r. split; [reflexivity | apply orderly_nil].
Qed.

(** The steps of [connect] before the query handler is loaded. *)
Lemma establish_orderly config s (m : Machine) :
  omits_wallet s = false ->
  instanceofObject (options (this m)) = true ->
  exists es,
    trace (snd (bind (prepare_options s) (fun _ => establish config s) m))
    = trace m ++ es /\
    orderly (fst (bind (prepare_options s) (fun _ => establish config s) m))
      es.
Proof.
  intros Hw Ho.
  pose proof (prepare_options_run s m (omits_wallet_obj s Hw) Ho) as H1.
  cbv zeta in H1.
  set (o' := fst (_mergeOptions (prepared (options (this m)) s) s)) in *.
  assert (instanceofObject o' = true) as Ho'
      by (apply mergeOptions_obj; now rewrite prepared_obj).
  set (front :=
         bind (load_client respond config) (fun _ =>
         bind (setup_identity respond s) (fun _ =>
         bind (setup_clientTlsIdentity respond s) (fun _ =>
         setup_tlsInfo respond s)))).
  assert (runs_orderly front) as Hfront.
  { unfold front.
    apply runs_orderly_bind; [apply load_client_orderly | intro].
    apply runs_orderly_bind; [apply setup_identity_orderly | intro].
    apply runs_orderly_bind; [apply setup_clientTlsIdentity_orderly | intro].
    apply setup_tlsInfo_orderly. }
  assert (steps (keeps options) front) as Hkeep.
  { unfold front.
    apply steps_bind; [exact _ | apply load_client_keeps_options | intro].
    apply steps_bind; [exact _ | apply setup_identity_keeps_options | intro].
    apply steps_bind;
      [exact _ | apply setup_clientTlsIdentity_keeps_options | intro].
    apply setup_tlsInfo_keeps_options. }
  assert (forall m0, establish config s m0
                     = bind front (fun _ => load_queryHandler respond) m0)
    as Hsplit.
  { intros m0. unfold establish, front, bind.
    destruct (load_client respond config m0) as [[[]|e2] m2]; [|reflexivity].
    destruct (setup_identity respond s m2) as [[[]|e3] m3]; [|reflexivity].
    destruct (setup_clientTlsIdentity respond s m3) as [[[]|e4] m4];
      [|reflexivity].
    destruct (setup_tlsInfo respond s m4) as [[[]|e5] m5]; reflexivity. }
  unfold bind at 1 2. rewrite H1.
  destruct (snd (_mergeOptions (prepared (options (this m)) s) s)) as [e1|].
  - exists []. rewrite app_nil_r. split; [reflexivity | apply orderly_nil].
  - rewrite Hsplit.
    set (m1 := mkMachine (set_options o' (this m)) (next_addr m) (trace m)
                 (world m)).
    destruct (Hfront m1) as [es1 [Ht1 Ho1]].
    pose proof (Hkeep m1) as Hk. unfold keeps in Hk. simpl in Hk.
    unfold bind. destruct (front m1) as [[[]|e] m5]; simpl in *.
    + assert (instanceofObject (options (this m5)) = true) as Ho5
          by now rewrite Hk.
      destruct (load_queryHandler_orderly m5 Ho5) as [es2 [Ht2 Ho2]].
      exists (es1 ++ es2).
      split; [rewrite Ht2, Ht1; now rewrite app_assoc|].
      destruct Ho1 as [F1|[es0 [c0 [e0 [_ [_ Hr]]]]]]; [|discriminate].
      destruct Ho2 as [F2|[es0 [c0 [e0 [He [F0 Hr]]]]]].
      * left. apply Forall_app. now split.
      * right. exists (es1 ++ es0), c0, e0.
        split; [rewrite He; now rewrite app_assoc|].
        split; [apply Forall_app; now split | exact Hr].
    + exists es1. split; [exact Ht1 | exact Ho1].
Qed.

(** X14. [connect] stops at the first call that throws.  Whatever call of
    a [connect] has thrown, it is the last call of that [connect], every
    call before it has returned, and [connect] throws its error: as it
    is, or for [require] wrapped in "unable to load provided query
    handler". *)
Theorem connect_stops_at_first_throw config s (m : Machine) c e :
  omits_wallet s = false ->
  instanceofObject (options (this m)) = true ->
  let r := fst (connect respond config s m) in
  let es := new_events m (snd (connect respond config s m)) in
  In (c, inr e) es ->
  exists es0,
    es = es0 ++ [(c, inr e)] /\ Forall returned es0 /\
    r = inr (rethrown c e).
Proof.
  intros Hw Ho r es. subst r es. rewrite connect_run by exact Hw.
  destruct (establish_orderly config s m Hw Ho) as [es [Ht Hord]].
  rewrite (new_events_app _ _ es Ht). intros Hin.
  destruct Hord as [F|[es0 [c0 [e0 [He [F0 Hr]]]]]].
  - rewrite Forall_forall in F. destruct (F _ Hin) as [v Hv]. discriminate.
  - subst es. apply in_app_or in Hin. destruct Hin as [Hin|[Hin|[]]].
    + rewrite Forall_forall in F0. destruct (F0 _ Hin) as [v Hv].
      discriminate.
    + injection Hin as -> ->. exists es0. auto.
Qed.

(** X15. Only [connect] configures the Gateway: [getNetwork] and
    [disconnect] change nothing of it but the network cache, and
    [_createQueryHandler] changes nothing of it at all, however they
    end. *)
Theorem only_connect_configures (m : Machine) :
  (forall name,
      let g := this (snd (getNetwork respond name m)) in
      client g = client (this m) /\ wallet g = wallet (this m) /\
      options g = options (this m) /\
      currentIdentity g = currentIdentity (this m) /\
      queryHandlerClass g = queryHandlerClass (this m)) /\
  (let g := this (snd (disconnect respond m)) in
   client g = client (this m) /\ wallet g = wallet (this m) /\
   options g = options (this m) /\
   currentIdentity g = currentIdentity (this m) /\
   queryHandlerClass g = queryHandlerClass (this m)) /\
  (forall channel peerMap,
      this (snd (_createQueryHandler respond channel peerMap m)) = this m).
Proof.
  set (f := fun g => (client g, wallet g, options g, currentIdentity g,
                      queryHandlerClass g)).
  split; [|split].
  - intros name g. subst g.
    assert (steps (keeps f) (getNetwork respond name)) as H
        by (unfold getNetwork; follow kept).
    specialize (H m). unfold keeps, f in H. injection H. auto.
  - intros g. subst g.
    assert (steps (keeps f) (disconnect respond)) as H.
    { unfold disconnect. apply steps_bind; [exact _ | | intro].
      - apply steps_read; exact _.
      - apply steps_bind; [exact _ | apply dispose_all_keeps | intro].
        apply steps_update. intro. kept. }
    specialize (H m). unfold keeps, f in H. injection H. auto.
  - intros channel peerMap.
    assert (steps (keeps (fun g => g))
              (_createQueryHandler respond channel peerMap)) as H
        by (unfold _createQueryHandler, getCurrentIdentity; follow kept).
    exact (H m).
Qed.

End Properties.

(** * Examples *)



Lemma connect_without_wallet_witness :
  omits_wallet Demo.identity_only = true /\
  connect Demo.respond Demo.profile Demo.identity_only Demo.fresh
  = (inr (Error "A wallet must be assigned to a Gateway instance"),
     Demo.fresh).
Proof.
  split; [reflexivity|]. apply connect_without_wallet. reflexivity.
Defined.

(** Options with a wallet and no identity are accepted: [connect]
    returns. *)
Lemma connect_without_identity :
  get Demo.wallet_only "identity" = VUndef /\
  fst (connect Demo.respond Demo.profile Demo.wallet_only Demo.fresh) = inl tt.
Proof. split; reflexivity. Qed.

Lemma connect_merges_options_witness :
  let after :=
    options (this (snd (connect Demo.respond Demo.profile
                          Demo.shorter_timeout Demo.fresh))) in
  get (get after "eventHandlerOptions") "commitTimeout" = VNum 30 /\
  get (get after "eventHandlerOptions") "strategy" = Demo.strategy.
Proof.
  destruct (connect_merges_options Demo.respond Demo.strategy Demo.profile
              Demo.shorter_timeout Demo.fresh eq_refl eq_refl eq_refl)
    as [H _].
  cbv zeta in H. cbv zeta. rewrite H. split; reflexivity.
Defined.

Lemma default_eventHandlerOptions_witness :
  reports_defaults Demo.strategy
    (snd (connect Demo.respond Demo.profile (Demo.with_identity "admin")
            Demo.fresh)).
Proof.
  destruct (default_eventHandlerOptions Demo.respond Demo.strategy)
    as [Hnew Hkeep].
  apply Hkeep; [reflexivity | reflexivity |].
  apply Hnew. exists 0, 0. reflexivity.
Defined.

Lemma queryHandler_loading_witness :
  fst (connect Demo.respond Demo.profile Demo.other_handler Demo.fresh)
  = inr (Error "unable to load provided query handler: my/handler. Error Error: Cannot find module 'my/handler'") /\
  fst (_createQueryHandler Demo.respond (Demo.channel "mychannel") VNull
         Demo.connected)
  = inl Demo.the_handler.
Proof.
  destruct (queryHandler_loading Demo.respond) as [Hconnect [_ Hcreate]].
  split.
  - destruct (Hconnect Demo.profile Demo.other_handler Demo.fresh
                eq_refl eq_refl) as [_ [Hfail _]].
    cbv zeta in Hfail.
    destruct (Hfail (VStr "my/handler")
                (Error "Cannot find module 'my/handler'")) as [_ Hr].
    + vm_compute. auto.
    + rewrite Hr. reflexivity.
  - erewrite Hcreate; reflexivity.
Defined.

Lemma current_identity_witness :
  getCurrentIdentity Demo.connected
  = (inl (VObj 903 [("name", VStr "admin")]), Demo.connected).
Proof.
  destruct (current_identity Demo.respond) as [Hconnect _].
  destruct (Hconnect Demo.profile (Demo.with_identity "admin") Demo.fresh
              eq_refl eq_refl) as [Hset _].
  cbv zeta in Hset.
  destruct (Hset Demo.the_wallet Demo.the_client (VStr "admin")
              (VObj 903 [("name", VStr "admin")])) as [_ [_ [_ H]]].
  - vm_compute. auto.
  - exact H.
Defined.

Lemma tls_precedence_witness :
  let m' :=
    snd (connect Demo.respond Demo.profile Demo.tls_options Demo.fresh) in
  exists t v,
    tls_events (new_events Demo.fresh m')
    = [(Wallet_export Demo.the_wallet (VStr "tls"), inl t);
       (Client_setTlsClientCertAndKey Demo.the_client
          (get t "certificate") (get t "privateKey"), inl v)].
Proof.
  destruct (tls_precedence Demo.respond Demo.profile Demo.tls_options
              Demo.fresh eq_refl) as [H _].
  destruct (H eq_refl) as [_ Hr]. exact (Hr eq_refl).
Defined.

Lemma connect_queryHandlerOptions_witness :
  let after :=
    options (this (snd (connect Demo.respond Demo.profile
                          Demo.other_handler Demo.fresh))) in
  get after "queryHandlerOptions"
  = VObj 15 [("strategy", VStr "round-robin")].
Proof.
  destruct (connect_queryHandlerOptions Demo.respond Demo.profile
              Demo.other_handler Demo.fresh eq_refl eq_refl eq_refl)
    as [H _].
  destruct (H eq_refl eq_refl) as [_ [_ Hr]]. apply Hr. reflexivity.
Defined.

Lemma getNetwork_unknown_channel_witness :
  fst (getNetwork Demo.respond "other" Demo.connected)
  = inl (mkNetwork 4 (Demo.channel "other")).
Proof.
  edestruct (getNetwork_unknown_channel Demo.respond "other" Demo.connected)
    as [H _]; [reflexivity .. |].
  erewrite H; reflexivity.
Defined.

(** A merge throws where an earlier [connect] has put [null] in place of
    a nested options object. *)
Example mergeOptions_into_null :
  _mergeOptions
    (VObj 0 [("eventHandlerOptions", VNull)])
    (VObj 1 [("eventHandlerOptions", VObj 2 [("commitTimeout", VNum 5)])])
  = (VObj 0 [("eventHandlerOptions", VNull)],
     Some (TypeError "Cannot set property of null")).
Proof. reflexivity. Qed.

Lemma getNetwork_before_connect_witness :
  getNetwork Demo.respond "mychannel" Demo.fresh
  = (inr (TypeError "Cannot read property of null"), Demo.fresh).
Proof.
  apply (getNetwork_before_connect Demo.respond Demo.strategy).
  exists 0, 0. reflexivity.
Defined.

Lemma getNetwork_thrown_not_cached_witness :
  let thrown := getNetwork Demo.offline "mychannel" Demo.connected in
  fst thrown = inr (Error "no peers available") /\
  Map_get "mychannel" (networks (this (snd thrown))) = None.
Proof.
  split; [reflexivity|].
  destruct (getNetwork_thrown_not_cached Demo.offline "mychannel"
              Demo.connected (Error "no peers available") eq_refl)
    as [_ H].
  exact H.
Defined.

Lemma getNetwork_distinct_names_witness :
  getNetwork Demo.respond "a" Demo.two_networks
  = (inl (mkNetwork 4 (Demo.channel "a")), Demo.two_networks).
Proof.
  destruct (getNetwork_distinct_names Demo.respond "a" "b" Demo.connected
              (snd (getNetwork Demo.respond "a" Demo.connected))
              Demo.two_networks
              (mkNetwork 4 (Demo.channel "a"))
              (mkNetwork 5 (Demo.channel "b")))
    as [_ H]; [vm_compute; reflexivity | discriminate
              | vm_compute; reflexivity | vm_compute; reflexivity |].
  exact H.
Defined.

Lemma connect_keeps_networks_witness :
  let m1 := snd (getNetwork Demo.respond "a" Demo.connected) in
  let m2 := snd (connect Demo.respond Demo.profile Demo.shorter_timeout m1) in
  getNetwork Demo.respond "a" m2
  = (inl (mkNetwork 4 (Demo.channel "a")), m2).
Proof.
  apply (connect_keeps_networks Demo.respond "a" Demo.connected).
  vm_compute. reflexivity.
Defined.

Lemma disconnect_twice_witness :
  let m1 := snd (disconnect Demo.respond Demo.two_networks) in
  disconnect Demo.respond m1 = (inl tt, m1).
Proof.
  apply (disconnect_twice Demo.respond Demo.two_networks).
  intros n w. eexists. eexists. reflexivity.
Defined.

Lemma cache_invariant_witness :
  Map_get "b" (networks (this Demo.two_networks))
  = Some (mkNetwork 5 (Demo.channel "b")) /\
  (5 < next_addr Demo.two_networks)%nat.
Proof.
  split; [vm_compute; reflexivity|].
  destruct (cache_invariant Demo.respond Demo.strategy Demo.two_networks)
    as [_ H].
  - unfold Demo.two_networks, Demo.connected.
    apply reach_getNetwork, reach_getNetwork, reach_connect, reach_new.
    exists 0, 0. reflexivity.
  - apply (H "b" (mkNetwork 5 (Demo.channel "b"))). vm_compute. reflexivity.
Defined.

Lemma disconnect_aborts_witness :
  let m' := snd (disconnect Demo.stuck Demo.two_networks) in
  networks (this m') = networks (this Demo.two_networks) /\
  exists finished n rest es,
    Map_values (networks (this Demo.two_networks)) = finished ++ n :: rest /\
    new_events Demo.two_networks m'
    = es ++ [(Network_dispose n, inr (Error "channel b is busy"))] /\
    map fst es = map Network_dispose finished /\
    Forall returned es.
Proof.
  apply (disconnect_aborts Demo.stuck Demo.two_networks
           (Error "channel b is busy")).
  vm_compute. reflexivity.
Defined.

Lemma getOptions_same_object_witness :
  strict_eq (options (this Demo.connected))
    (options (this (snd (connect Demo.respond Demo.profile
                           Demo.shorter_timeout Demo.connected))))
  = true.
Proof.
  destruct (getOptions_same_object Demo.respond Demo.strategy Demo.connected)
    as [_ [H _]]; [|apply H].
  unfold Demo.connected. apply reach_connect, reach_new.
  exists 0, 0. reflexivity.
Defined.


Lemma connect_without_queryHandler_witness :
  let m' :=
    snd (connect Demo.respond Demo.profile Demo.no_handler Demo.fresh) in
  _createQueryHandler Demo.respond (Demo.channel "mychannel") VNull m'
  = (inl VNull, m').
Proof.
  destruct (connect_without_queryHandler Demo.respond Demo.profile
              Demo.no_handler Demo.fresh eq_refl eq_refl eq_refl)
    as [_ [_ H]].
  apply H. reflexivity.
Defined.

Lemma createQueryHandler_without_identity_witness :
  let m' :=
    snd (connect Demo.respond Demo.profile Demo.wallet_only Demo.fresh) in
  _createQueryHandler Demo.respond (Demo.channel "mychannel") VNull m'
  = (inr (TypeError "Cannot read property of undefined"), m').
Proof.
  destruct (createQueryHandler_without_identity Demo.respond Demo.strategy
              Demo.profile Demo.wallet_only Demo.fresh)
    as [_ H]; [exists 0, 0; reflexivity | reflexivity |].
  apply H. reflexivity.
Defined.

Lemma connect_client_witness :
  let m' :=
    snd (connect Demo.respond (ClientInstance Demo.the_client)
           (Demo.with_identity "admin") Demo.fresh) in
  getClient m' = (inl Demo.the_client, m').
Proof.
  destruct (connect_client Demo.respond (Demo.with_identity "admin")
              Demo.fresh eq_refl) as [H _].
  destruct (H Demo.the_client) as [_ Hc]. apply Hc. reflexivity.
Defined.

Lemma connect_options_idempotent_witness :
  let m1 :=
    snd (connect Demo.respond Demo.profile Demo.shorter_timeout Demo.fresh) in
  options (this (snd (connect Demo.respond Demo.profile Demo.shorter_timeout
                        m1)))
  = options (this m1).
Proof.
  destruct (connect_options_idempotent Demo.respond Demo.profile Demo.profile
              Demo.shorter_timeout Demo.fresh eq_refl eq_refl eq_refl eq_refl)
    as [_ H].
  exact H.
Defined.

Lemma connect_stops_at_first_throw_witness :
  let run := connect Demo.respond Demo.profile Demo.other_handler Demo.fresh in
  exists es0,
    new_events Demo.fresh (snd run)
    = es0 ++ [(Node_require (VStr "my/handler"),
               inr (Error "Cannot find module 'my/handler'"))] /\
    Forall returned es0 /\
    fst run
    = inr (rethrown (Node_require (VStr "my/handler"))
             (Error "Cannot find module 'my/handler'")).
Proof.
  apply (connect_stops_at_first_throw Demo.respond Demo.profile
           Demo.other_handler Demo.fresh); [reflexivity | reflexivity |].
  vm_compute. auto.
Defined.
